(** * questionary: the completion engine of [questionary/completer.py]

    A shallow embedding of [PathCompleter], [ExecutableCompleter] and
    [WordCompleter] (questionary/completer.py) and of the completer selection
    made by [text] (questionary/prompts/text.py), with the properties the
    specification states about them.

    Python values are modelled as follows.
    - [str] is a sequence of Unicode code points, [list N].
    - A call that may raise returns a [result]; a generator is the list of
      the values it yielded together with the exception that ended it, if
      any ([gen]).
    - The operating system (file system, environment, home directory) is a
      [World] the request reads from.
    - [dict] is stdpp's [gmap]. *)

From Stdlib Require Import ZArith NArith String Ascii.
From stdpp Require Import base option list gmap sorting.

Set Default Proof Using "Type".

(** ** Python strings *)

Abbreviation str := (list N).

(** The literal [u "abc"]: the code points of an ASCII string literal. *)
Definition u (s : string) : str := N_of_ascii <$> list_ascii_of_string s.
Arguments u s%_string_scope.

(** One code point, written as a one-character literal. *)
Definition ch (s : string) : N :=
  match u s with c :: _ => c | [] => 0%N end.
Arguments ch s%_string_scope.

Module Str.

(** [str.isspace] for one code point (CPython's [_PyUnicode_IsWhitespace]). *)
Definition isspace (c : N) : bool :=
  ((9 <=? c) && (c <=? 13) || (28 <=? c) && (c <=? 32)
   || (c =? 133) || (c =? 160) || (c =? 5760)
   || (8192 <=? c) && (c <=? 8202)
   || (c =? 8232) || (c =? 8233) || (c =? 8239) || (c =? 8287)
   || (c =? 12288))%N.

Fixpoint lstrip (s : str) : str :=
  match s with
  | c :: s' => if isspace c then lstrip s' else s
  | [] => []
  end.

Definition rstrip (s : str) : str := reverse (lstrip (reverse s)).

(** [s.strip()] *)
Definition strip (s : str) : str := rstrip (lstrip s).

(** [s.startswith(prefix)] *)
Fixpoint startswith (s prefix : str) {struct prefix} : bool :=
  match prefix, s with
  | [], _ => true
  | _ :: _, [] => false
  | c :: prefix', d :: s' => (c =? d)%N && startswith s' prefix'
  end.

(** [s.endswith(suffix)] *)
Definition endswith (s suffix : str) : bool :=
  startswith (reverse s) (reverse suffix).

(** [sub in s] *)
Fixpoint contains (s sub : str) : bool :=
  startswith s sub ||
  match s with
  | [] => false
  | _ :: s' => contains s' sub
  end.

(** [s.split()]: the maximal runs of non-whitespace characters. [cur] is
    the run being read. *)
Fixpoint split_go (cur s : str) : list str :=
  match s with
  | [] => match cur with [] => [] | _ => [cur] end
  | c :: s' =>
      if isspace c
      then match cur with
           | [] => split_go [] s'
           | _ => cur :: split_go [] s'
           end
      else split_go (cur ++ [c]) s'
  end.

Definition split (s : str) : list str := split_go [] s.

(** Splitting at every character that satisfies [p]; empty segments are
    kept, so the result has one more element than [s] has separators.
    This is [s.split(sep)] for a one-character [sep] and [re.split] for a
    pattern that is one character set. *)
Fixpoint split_at_go (p : N -> bool) (cur s : str) : list str :=
  match s with
  | [] => [cur]
  | c :: s' =>
      if p c then cur :: split_at_go p [] s'
      else split_at_go p (cur ++ [c]) s'
  end.

Definition split_at (p : N -> bool) (s : str) : list str :=
  split_at_go p [] s.

(** [sep.join(xs)] *)
Fixpoint join (sep : str) (xs : list str) : str :=
  match xs with
  | [] => []
  | [x] => x
  | x :: xs' => x ++ sep ++ join sep xs'
  end.

(** [a < b] on strings: lexicographic by code point. *)
Fixpoint lt (a b : str) : bool :=
  match a, b with
  | _, [] => false
  | [], _ :: _ => true
  | x :: a', y :: b' => (x <? y)%N || (x =? y)%N && lt a' b'
  end.

(** [a <= b] *)
Definition le (a b : str) : bool := negb (lt b a).

(** [c in s] for one character *)
Definition mem (c : N) (s : str) : bool := existsb (N.eqb c) s.

End Str.

(** ** Exceptions, results and generators *)

(** The exception classes the modelled code can meet. [OSError] stands for
    the class and its subclasses ([FileNotFoundError], [PermissionError],
    ...), which [except OSError] catches alike; [StopIteration] stands for
    that class and its subclasses, which Python does not let out of a
    generator ([G.frame]); [OtherError] is any exception that is neither
    of these, nor one of the classes named here. [Unmodelled] is no Python
    exception:
    it marks regular-expression syntax outside the fragment interpreted
    below, and [regexPattern_modelled] shows the completer never builds
    such a pattern. *)
Inductive exn : Type :=
| OSError
| TypeError
| AssertionError
| IndexError
| re_error
| StopIteration
| RuntimeError
| OtherError (name : string)
| Unmodelled.

Definition is_OSError (e : exn) : bool :=
  match e with OSError => true | _ => false end.

Inductive result (A : Type) : Type :=
| Ok (a : A)
| Raise (e : exn).
Arguments Ok {A} a.
Arguments Raise {A} e.

Global Instance result_bind : MBind result := fun A B k r =>
  match r with
  | Ok a => k a
  | Raise e => Raise e
  end.

Global Instance result_fmap : FMap result := fun A B f r =>
  match r with
  | Ok a => Ok (f a)
  | Raise e => Raise e
  end.

(** What a consumer that exhausts a generator observes: the values yielded,
    in order, and the exception that ended the iteration ([None] when the
    generator returned). *)
Record gen (A : Type) : Type := Gen {
  yielded : list A;
  raised : option exn
}.
Arguments Gen {A} yielded raised.
Arguments yielded {A} g.
Arguments raised {A} g.

Module G.

(** [return] *)
Definition ret {A : Type} : gen A := Gen [] None.

(** [raise e] *)
Definition fail {A : Type} (e : exn) : gen A := Gen [] (Some e).

(** [yield x], then the rest of the body *)
Definition yield {A : Type} (x : A) (rest : gen A) : gen A :=
  Gen (x :: yielded rest) (raised rest).

(** Evaluating a call inside the body: its exception ends the body; what
    the consumer sees of it is settled when it leaves the generator
    ([frame] below). *)
Definition call {A B : Type} (r : result A) (k : A -> gen B) : gen B :=
  match r with
  | Ok a => k a
  | Raise e => fail e
  end.

(** [try: body  except OSError: pass] around a generator body: what was
    yielded stays yielded, an [OSError] ends the generator normally,
    any other exception goes on. *)
Definition except_OSError {A : Type} (body : gen A) : gen A :=
  Gen (yielded body)
      (match raised body with
       | Some e => if is_OSError e then None else Some e
       | None => None
       end).

(** The exception a consumer sees when [e] leaves the generator: a
    [StopIteration] that leaves a generator is replaced by a [RuntimeError]
    (PEP 479, the behaviour of CPython 3.7 and later); every other
    exception goes through as it is. *)
Definition leaving (e : exn) : exn :=
  match e with
  | StopIteration => RuntimeError
  | _ => e
  end.

(** The generator as its consumer sees it: the body, with the exception
    that leaves it, if any, passed through [leaving]. *)
Definition frame {A : Type} (body : gen A) : gen A :=
  Gen (yielded body) (leaving <$> raised body).

End G.

(** ** The fragment of Python's [re] the completer uses

    [PathCompleter.get_completions] builds one pattern,
    ['[' + '|'.join(map(re.escape, ...)) + ']'], and splits with it.  The
    model interprets patterns that consist of one character set whose items
    are literal characters or escaped non-alphanumeric characters. *)
Module Re.

(** The characters [re.escape] puts a backslash before (CPython 3.7 and
    later: [_special_chars_map]): the punctuation below, the space, and
    tab, line feed, carriage return, vertical tab and form feed. *)
Definition special_chars : str :=
  u "()[]{}?*+-|^$\.&~# " ++ [9; 10; 13; 11; 12]%N.

Definition is_special (c : N) : bool := Str.mem c special_chars.

(** [re.escape(s)] *)
Fixpoint escape (s : str) : str :=
  match s with
  | [] => []
  | c :: s' =>
      if is_special c then ch "\" :: c :: escape s' else c :: escape s'
  end.

Definition is_ascii_alnum (c : N) : bool :=
  ((48 <=? c) && (c <=? 57) || (65 <=? c) && (c <=? 90)
   || (97 <=? c) && (c <=? 122))%N.

(** The items of a character set, read up to the closing bracket; [acc]
    holds the members read so far, last one first.
    - a pattern that ends inside the set is an error ("unterminated
      character set"), and so is one that ends after a backslash;
    - a backslash before a character that is not an ASCII letter or digit
      stands for that character;
    - any other character except [-] (a range) and the brackets stands
      for itself: in particular [|] is an ordinary member of a set;
    - escapes of letters and digits, ranges, an opening bracket, and
      anything after the closing bracket are outside the fragment. *)
Fixpoint set_items (p : str) (acc : str) : result str :=
  match p with
  | [] => Raise re_error
  | c :: p' =>
      if (c =? ch "]")%N then
        match p' with
        | [] => Ok (reverse acc)
        | _ :: _ => Raise Unmodelled
        end
      else if (c =? ch "\")%N then
        match p' with
        | [] => Raise re_error
        | e :: p'' =>
            if is_ascii_alnum e then Raise Unmodelled
            else set_items p'' (e :: acc)
        end
      else if (c =? ch "-")%N || (c =? ch "[")%N then Raise Unmodelled
      else set_items p' (c :: acc)
  end.

(** Compiling a pattern that is one character set: the members of the
    set.  A closing bracket right after the opening one is a member, not
    the end of the set, so ['[]'] is an unterminated set. *)
Definition compile_set (pattern : str) : result str :=
  match pattern with
  | o :: p' =>
      if (o =? ch "[")%N then
        match p' with
        | c :: p'' =>
            if (c =? ch "]")%N then set_items p'' [c]
            else if (c =? ch "^")%N then Raise Unmodelled
            else set_items p' []
        | [] => Raise re_error
        end
      else Raise Unmodelled
  | [] => Raise Unmodelled
  end.

(** [re.split(pattern, s)] for such a pattern: [s] is cut at every
    character that is a member of the set. *)
Definition split (pattern s : str) : result (list str) :=
  members ← compile_set pattern;
  Ok (Str.split_at (fun c => Str.mem c members) s).

End Re.

(** ** [os.path] on a POSIX system *)

Definition is_sep (c : N) : bool := (c =? ch "/")%N.

(** [p.rfind('/') + 1]: the index just after the last separator, 0 when
    there is none. *)
Fixpoint rfind_sep_succ (p : str) : nat :=
  match p with
  | [] => 0
  | c :: p' =>
      match rfind_sep_succ p' with
      | 0 => if is_sep c then 1 else 0
      | S i => S (S i)
      end
  end.

(** [head.rstrip('/')] *)
Fixpoint lstrip_sep (s : str) : str :=
  match s with
  | c :: s' => if is_sep c then lstrip_sep s' else s
  | [] => []
  end.

Definition rstrip_sep (s : str) : str := reverse (lstrip_sep (reverse s)).

(** [posixpath.dirname] *)
Definition os_path_dirname (p : str) : str :=
  let i := rfind_sep_succ p in
  let head := take i p in
  match head with
  | [] => head
  | _ :: _ => if forallb is_sep head then head else rstrip_sep head
  end.

(** [posixpath.basename] *)
Definition os_path_basename (p : str) : str :=
  let i := rfind_sep_succ p in
  drop i p.

(** [posixpath.join(a, b)] *)
Definition os_path_join (a b : str) : str :=
  if Str.startswith b (u "/") then b
  else match a with
       | [] => a ++ b
       | _ :: _ => if Str.endswith a (u "/") then a ++ b
                   else a ++ u "/" ++ b
       end.

(** ** The operating system a request reads from *)

(** [os_listdir] is [None] when [os.listdir] raises [OSError] (permission
    denied, the directory removed since it was tested, not a directory any
    more).  [os.path.isdir] and [os.access] do not raise.
    [os_path_expanduser] is the value [os.path.expanduser] returns; the
    texts on which it does not return (a [~name] whose name cannot be
    looked up, such as one that holds a NUL character, raises
    [ValueError]) are outside the model.  [os_environ] is [os.environ].
    The empty path names no file, so [os.path.isdir('')] is false
    ([os_path_isdir_empty]). *)
Record World : Type := {
  os_path_isdir : str -> bool;
  os_listdir : str -> option (list str);
  os_path_expanduser : str -> str;
  os_access_X_OK : str -> bool;
  os_environ : gmap str str;
  os_path_isdir_empty : os_path_isdir [] = false
}.

(** [os.pathsep] *)
Definition os_pathsep : N := ch ":".

(** ** [prompt_toolkit.completion.Completion]

    [Completion(text, start_position=0, display=None, display_meta=None)]:
    [display] is [text] when it is not given, and [display_meta] is empty
    when it is not given. *)
Record Completion : Type := mkCompletion {
  text : str;
  start_position : Z;
  display : str;
  display_meta : str
}.

Definition new_Completion (text : str) (start_position : Z)
    (display display_meta : option str) : Completion :=
  {| text := text;
     start_position := start_position;
     display := default text display;
     display_meta := default [] display_meta |}.

(** ** Calls with keyword arguments *)

(** The values the modelled calls pass.  [VPaths] and [VFilter] are the
    callables: a function of no argument that returns directories, and a
    function of one path that returns a truth value; both may read the
    operating system and may raise. *)
Inductive pyval : Type :=
| VNone
| VBool (b : bool)
| VInt (z : Z)
| VStr (s : str)
| VPaths (f : World -> result (list str))
| VFilter (f : World -> str -> result bool).

Definition kwargs := list (string * pyval).

(** The value a call gives the parameter [name]; the parameter's default
    value when the call does not name it. *)
Fixpoint argument (name : string) (dflt : pyval) (kw : kwargs) : pyval :=
  match kw with
  | [] => dflt
  | (k, v) :: kw' => if String.eqb k name then v else argument name dflt kw'
  end.

(** Binding keyword arguments to a function's parameters: a keyword that
    names none of them raises [TypeError] before the body runs. *)
Definition bind_keywords (parameters : list string) (kw : kwargs)
    : result unit :=
  if forallb (fun k => existsb (String.eqb k) parameters) (fst <$> kw)
  then Ok tt else Raise TypeError.

(** [assert b] *)
Definition assert (b : bool) : result unit :=
  if b then Ok tt else Raise AssertionError.

(** [callable(v)] *)
Definition callable (v : pyval) : bool :=
  match v with VPaths _ | VFilter _ => true | _ => false end.

Definition is_None (v : pyval) : bool :=
  match v with VNone => true | _ => false end.

(** [isinstance(v, str)] *)
Definition isinstance_str (v : pyval) : bool :=
  match v with VStr _ => true | _ => false end.

(** [isinstance(v, int)]; [bool] is a subclass of [int]. *)
Definition isinstance_int (v : pyval) : bool :=
  match v with VInt _ | VBool _ => true | _ => false end.

(** [isinstance(v, bool)] *)
Definition isinstance_bool (v : pyval) : bool :=
  match v with VBool _ => true | _ => false end.

(** The truth value of [v] in a condition. *)
Definition truthy (v : pyval) : bool :=
  match v with
  | VNone => false
  | VBool b => b
  | VInt z => negb (z =? 0)%Z
  | VStr s => negb (bool_decide (s = []))
  | VPaths _ | VFilter _ => true
  end.

(** ** [PathCompleter] *)

(** The attributes [__init__] sets.  [get_paths] is called with no
    argument and [file_filter] with one path. *)
Record PathCompleter : Type := {
  only_directories : bool;
  get_paths : World -> result (list str);
  file_filter : World -> str -> result bool;
  min_input_len : Z;
  expanduser : bool;
  delimiters : option str
}.

Definition PathCompleter_parameters : list string :=
  ["only_directories"; "get_paths"; "file_filter"; "min_input_len";
   "expanduser"; "delimiters"]%string.

(** [PathCompleter.__init__], called with keyword arguments.  The four
    assertions type the attributes; [get_paths or (lambda: ['.'])] and
    [file_filter or (lambda _: True)] supply the defaults.  A callable of
    the wrong arity passes the assertions and raises [TypeError] when it is
    called. *)
Definition PathCompleter_init (kw : kwargs) : result PathCompleter :=
  _ ← bind_keywords PathCompleter_parameters kw;
  let only_directories := argument "only_directories" (VBool false) kw in
  let get_paths := argument "get_paths" VNone kw in
  let file_filter := argument "file_filter" VNone kw in
  let min_input_len := argument "min_input_len" (VInt 0) kw in
  let expanduser := argument "expanduser" (VBool false) kw in
  let delimiters := argument "delimiters" VNone kw in
  _ ← assert (is_None get_paths || callable get_paths);
  _ ← assert (is_None file_filter || callable file_filter);
  _ ← assert (is_None delimiters || isinstance_str delimiters);
  _ ← assert (isinstance_int min_input_len);
  _ ← assert (isinstance_bool expanduser);
  Ok {|
    only_directories := truthy only_directories;
    get_paths :=
      match get_paths with
      | VPaths f => f
      | VFilter _ => fun _ => Raise TypeError
      | _ => fun _ => Ok [u "."]
      end;
    file_filter :=
      match file_filter with
      | VFilter f => f
      | VPaths _ => fun _ _ => Raise TypeError
      | _ => fun _ _ => Ok true
      end;
    min_input_len :=
      match min_input_len with
      | VInt z => z
      | VBool b => if b then 1 else 0
      | _ => 0
      end;
    expanduser := truthy expanduser;
    delimiters :=
      match delimiters with
      | VStr s => Some s
      | _ => None
      end
  |}.

(** The pattern built from the configured delimiters:
    ['[' + '|'.join(map(re.escape, self.delimiters.split())) + ']']. *)
Definition regexPattern (delimiters : str) : str :=
  u "[" ++ Str.join (u "|") (Re.escape <$> Str.split delimiters) ++ u "]".

(** Lines 43-47: the text the request works on. *)
Definition working_text (self : PathCompleter) (text_before_cursor : str)
    : result str :=
  let text := Str.strip text_before_cursor in
  match delimiters self with
  | None => Ok text
  | Some d =>
      segments ← Re.split (regexPattern d) text;
      match last segments with
      | Some segment => Ok (Str.strip segment)
      | None => Raise IndexError
      end
  end.

(** Lines 57-58: tilde expansion. *)
Definition expanded (self : PathCompleter) (w : World) (text : str) : str :=
  if expanduser self then os_path_expanduser w text else text.

(** Lines 61-66: the directories where to look. *)
Definition directories (self : PathCompleter) (w : World) (text : str)
    : result (list str) :=
  match os_path_dirname text with
  | _ :: _ =>
      paths ← get_paths self w;
      Ok (map (fun p => os_path_dirname (os_path_join p text)) paths)
  | [] => get_paths self w
  end.

(** Lines 72-78: the [(directory, filename)] pairs whose filename starts
    with [prefix], directory after directory. *)
Fixpoint filenames (w : World) (prefix : str) (directories : list str)
    : result (list (str * str)) :=
  match directories with
  | [] => Ok []
  | directory :: rest =>
      found ←
        (if os_path_isdir w directory then
           match os_listdir w directory with
           | Some names =>
               Ok (pair directory <$>
                   List.filter (fun filename => Str.startswith filename prefix)
                               names)
           | None => Raise OSError
           end
         else Ok []);
      more ← filenames w prefix rest;
      Ok (found ++ more)
  end.

(** Line 81: [sorted(filenames, key=lambda k: k[1])].  [sorted] is stable
    and compares keys with [<]; inserting every pair, from the last to the
    first, before the first pair whose key is not smaller gives that
    order ([sorted_stable], [sorted_Sorted] and [sorted_Permutation]
    below). *)
Fixpoint insert_by_filename (x : str * str) (l : list (str * str))
    : list (str * str) :=
  match l with
  | [] => [x]
  | y :: l' =>
      if Str.lt (snd y) (snd x) then y :: insert_by_filename x l'
      else x :: l
  end.

Definition sorted (l : list (str * str)) : list (str * str) :=
  foldr insert_by_filename [] l.

(** Lines 84-99: the loop that yields. *)
Fixpoint yield_completions (self : PathCompleter) (w : World) (prefix : str)
    (filenames : list (str * str)) : gen Completion :=
  match filenames with
  | [] => G.ret
  | (directory, filename) :: rest =>
      let completion := drop (length prefix) filename in
      let full_name := os_path_join directory filename in
      if os_path_isdir w full_name then
        let filename := filename ++ u "/" in
        G.call (file_filter self w full_name) (fun keep =>
          if keep
          then G.yield (new_Completion completion 0 (Some filename) None)
                       (yield_completions self w prefix rest)
          else yield_completions self w prefix rest)
      else if only_directories self then
        yield_completions self w prefix rest
      else
        G.call (file_filter self w full_name) (fun keep =>
          if keep
          then G.yield (new_Completion completion 0 (Some filename) None)
                       (yield_completions self w prefix rest)
          else yield_completions self w prefix rest)
  end.

(** Lines 55-101: the body under [try] ... [except OSError: pass]. *)
Definition completions_of (self : PathCompleter) (w : World) (text : str)
    : gen Completion :=
  G.except_OSError
    (let text := expanded self w text in
     G.call (directories self w text) (fun directories =>
     let prefix := os_path_basename text in
     G.call (filenames w prefix directories) (fun filenames =>
     yield_completions self w prefix (sorted filenames)))).

(** [PathCompleter.get_completions]: [text_before_cursor] is
    [document.text_before_cursor]; [complete_event] is not used. *)
Definition get_completions (self : PathCompleter) (w : World)
    (text_before_cursor : str) : gen Completion :=
  G.frame
    (G.call (working_text self text_before_cursor) (fun text =>
     if (Z.of_nat (length text) <? min_input_len self)%Z then G.ret
     else completions_of self w text)).

(** ** [ExecutableCompleter] *)

(** [lambda: os.environ.get('PATH', '').split(os.pathsep)] *)
Definition executable_paths (w : World) : result (list str) :=
  Ok (Str.split_at (fun c => (c =? os_pathsep)%N)
                   (default [] (os_environ w !! u "PATH"))).

(** [lambda name: os.access(name, os.X_OK)] *)
Definition executable_filter (w : World) (name : str) : result bool :=
  Ok (os_access_X_OK w name).

(** [ExecutableCompleter.__init__(self)]: it has no parameter besides
    [self], so every keyword argument is refused. *)
Definition ExecutableCompleter_init (kw : kwargs) : result PathCompleter :=
  _ ← bind_keywords [] kw;
  PathCompleter_init
    [("only_directories", VBool false);
     ("min_input_len", VInt 1);
     ("get_paths", VPaths executable_paths);
     ("file_filter", VFilter executable_filter);
     ("expanduser", VBool true)]%string.

(** The completer [ExecutableCompleter()] constructs. *)
Definition ExecutableCompleter : PathCompleter := {|
  only_directories := false;
  get_paths := executable_paths;
  file_filter := executable_filter;
  min_input_len := 1;
  expanduser := true;
  delimiters := None
|}.

(** ** [WordCompleter] *)
Module Word.

(** [words]: a list of words, or a callable that returns one (and may
    raise). *)
Inductive words_t : Type :=
| Words (ws : list str)
| Callable (f : unit -> result (list str)).

Record WordCompleter : Type := {
  words : words_t;
  ignore_case : bool;
  meta_dict : gmap str str;
  WORD : bool;
  sentence : bool;
  match_middle : bool;
  pattern : option str
}.

(** [WordCompleter.__init__].  The second assertion,
    [callable(words) or all(isinstance(w, string_types) for w in words)],
    holds of every value of [words_t]. *)
Definition init (words : words_t) (ignore_case : bool)
    (meta_dict : option (gmap str str)) (WORD sentence match_middle : bool)
    (pattern : option str) : result WordCompleter :=
  _ ← assert (negb (WORD && sentence));
  Ok {| words := words;
        ignore_case := ignore_case;
        meta_dict := default ∅ meta_dict;
        WORD := WORD;
        sentence := sentence;
        match_middle := match_middle;
        pattern := pattern |}.

(** Lines 153-155: the list of words, from the callable when there is
    one. *)
Definition resolve_words (self : WordCompleter) : result (list str) :=
  match words self with
  | Words ws => Ok ws
  | Callable f => f tt
  end.

Section get_completions.

(** [str.lower], and [Document.get_word_before_cursor(WORD=...)] of
    prompt_toolkit as a function of the flag and of the text before the
    cursor: both are library code the completer calls. *)
Variable lower : str -> str.
Variable get_word_before_cursor : bool -> str -> str.

(** Lines 157-165: [word_before_cursor] as the matching uses it. *)
Definition anchor (self : WordCompleter) (text_before_cursor : str) : str :=
  let word_before_cursor :=
    if sentence self then text_before_cursor
    else get_word_before_cursor (WORD self) text_before_cursor in
  if ignore_case self then lower word_before_cursor
  else word_before_cursor.

(** Lines 167-175 *)
Definition word_matches (self : WordCompleter) (word_before_cursor : str)
    (word : str) : bool :=
  let word := if ignore_case self then lower word else word in
  if match_middle self then Str.contains word word_before_cursor
  else Str.startswith word word_before_cursor.

(** Lines 177-180 *)
Fixpoint yield_matches (self : WordCompleter) (word_before_cursor : str)
    (ws : list str) : gen Completion :=
  match ws with
  | [] => G.ret
  | a :: rest =>
      if word_matches self word_before_cursor a then
        let display_meta := default [] (meta_dict self !! a) in
        G.yield (new_Completion a (- Z.of_nat (length word_before_cursor))
                                None (Some display_meta))
                (yield_matches self word_before_cursor rest)
      else yield_matches self word_before_cursor rest
  end.

(** [WordCompleter.get_completions] *)
Definition get_completions (self : WordCompleter)
    (text_before_cursor : str) : gen Completion :=
  G.frame
    (G.call (resolve_words self) (fun ws =>
     yield_matches self (anchor self text_before_cursor) ws)).

End get_completions.

(** [str.lower] on the Basic Latin and Latin-1 letters and on U+0130,
    LATIN CAPITAL LETTER I WITH DOT ABOVE, whose lower case is the two
    code points U+0069 U+0307.  Other code points are left as they are:
    this table serves the concrete examples only, and the general
    statements hold for every [lower]. *)
Definition lower_char (c : N) : str :=
  (if (65 <=? c) && (c <=? 90) then [c + 32]
   else if (192 <=? c) && (c <=? 222) && negb (c =? 215) then [c + 32]
   else if c =? 304 then [105; 775]
   else [c])%N.

Definition latin_lower (s : str) : str := s ≫= lower_char.

End Word.

(** ** The completer [text] installs (questionary/prompts/text.py) *)

(** The value of [promptArgs['completer']]: one of this module's path
    completers, or prompt_toolkit's own [WordCompleter]. *)
Inductive completer : Type :=
| PathCompleter_object (c : PathCompleter)
| prompt_toolkit_WordCompleter (words : list str) (ignore_case : bool).

(** [' \t\n;,'] *)
Definition text_delimiters : str := [32; 9; 10]%N ++ u ";,".

(** Lines 73-80 of [text]: the completer put in [promptArgs], [None] when
    the key is not set.  The calls before these lines ([merge_styles],
    [build_validator]) and after them ([PromptSession]) are library code
    that does not bear on the choice. *)
Definition text_completer (path_autocomplete exec_autocomplete : bool)
    (custom_autocomplete : option (list str)) : result (option completer) :=
  if path_autocomplete then
    c ← PathCompleter_init
          [("expanduser", VBool true);
           ("delimiters", VStr text_delimiters)]%string;
    Ok (Some (PathCompleter_object c))
  else if exec_autocomplete then
    c ← ExecutableCompleter_init
          [("delimiters", VStr text_delimiters)]%string;
    Ok (Some (PathCompleter_object c))
  else
    match custom_autocomplete with
    | Some ws =>
        if negb (length ws =? 0)%nat
        then Ok (Some (prompt_toolkit_WordCompleter ws true))
        else Ok None
    | None => Ok None
    end.

(** ** Notions the statements use *)

(** The order [sorted] sorts by: the filenames, compared as strings. *)
Definition by_filename (x y : str * str) : Prop :=
  Str.le (snd x) (snd y) = true.

(** The completion the loop of lines 84-99 builds from one pair. *)
Definition completion_of (w : World) (prefix : str) (x : str * str)
    : Completion :=
  let full_name := os_path_join x.1 x.2 in
  new_Completion (drop (length prefix) x.2) 0
    (Some (if os_path_isdir w full_name then x.2 ++ u "/" else x.2)) None.

(** The pairs the loop calls [file_filter] on: directories and, when
    [only_directories] is off, everything else. *)
Definition filtered (self : PathCompleter) (w : World) (x : str * str)
    : Prop :=
  os_path_isdir w (os_path_join x.1 x.2) = true ∨ only_directories self = false.

(** The pairs the loop yields a completion for. *)
Definition passes (self : PathCompleter) (w : World) (x : str * str) : Prop :=
  filtered self w x ∧ file_filter self w (os_path_join x.1 x.2) = Ok true.

(** "A caller-supplied function raises [e] during the request": either the
    request reaches the call of [get_paths] and that call raises [e], or
    the listing succeeds and the loop reaches a pair on which [file_filter]
    raises [e], the calls of [file_filter] before it having returned. *)
Inductive supplier_raises (self : PathCompleter) (w : World)
    (text_before_cursor : str) (e : exn) : Prop :=
| get_paths_raises t :
    working_text self text_before_cursor = Ok t →
    (min_input_len self ≤ Z.of_nat (length t))%Z →
    get_paths self w = Raise e →
    supplier_raises self w text_before_cursor e
| file_filter_raises t dirs fs before x after :
    working_text self text_before_cursor = Ok t →
    (min_input_len self ≤ Z.of_nat (length t))%Z →
    directories self w (expanded self w t) = Ok dirs →
    filenames w (os_path_basename (expanded self w t)) dirs = Ok fs →
    sorted fs = before ++ x :: after →
    (∀ y, y ∈ before → filtered self w y →
          ∃ keep, file_filter self w (os_path_join y.1 y.2) = Ok keep) →
    filtered self w x →
    file_filter self w (os_path_join x.1 x.2) = Raise e →
    supplier_raises self w text_before_cursor e.

(** ** Concrete requests *)

(** A small file system.  [.] holds the file [ab], the file [a.b] and the
    directory [a]; [/tmp/x] holds [beta.txt], the directory [alphabet] and
    [alpha.txt]; [/bin] holds [ls]; [/locked] is a directory that cannot be
    listed.  Every file is executable, [~] is not used, and the environment
    is empty, so [PATH] is unset. *)
Definition example_world : World := {|
  os_path_isdir := fun p =>
    bool_decide (p ∈ [u "."; u "./a"; u "/tmp"; u "/tmp/x";
                      u "/tmp/x/alphabet"; u "/bin"; u "/locked"]);
  os_listdir := fun p =>
    if bool_decide (p = u ".") then Some [u "ab"; u "a.b"; u "a"]
    else if bool_decide (p = u "/tmp/x")
    then Some [u "beta.txt"; u "alphabet"; u "alpha.txt"]
    else if bool_decide (p = u "/bin") then Some [u "ls"]
    else None;
  os_path_expanduser := fun p => p;
  os_access_X_OK := fun _ => true;
  os_environ := ∅;
  os_path_isdir_empty := eq_refl
|}.

(** The same system with [PATH=/bin]. *)
Definition example_world_PATH : World := {|
  os_path_isdir := os_path_isdir example_world;
  os_listdir := os_listdir example_world;
  os_path_expanduser := os_path_expanduser example_world;
  os_access_X_OK := os_access_X_OK example_world;
  os_environ := {[ u "PATH" := u "/bin" ]};
  os_path_isdir_empty := eq_refl
|}.

(** A path completer that looks into the directories [paths]. *)
Definition completer_in (paths : list str) : PathCompleter := {|
  only_directories := false;
  get_paths := fun _ => Ok paths;
  file_filter := fun _ _ => Ok true;
  min_input_len := 0;
  expanduser := false;
  delimiters := None
|}.

(** A path completer whose [get_paths] raises [e]. *)
Definition completer_raising (e : exn) : PathCompleter := {|
  only_directories := false;
  get_paths := fun _ => Raise e;
  file_filter := fun _ _ => Ok true;
  min_input_len := 0;
  expanduser := false;
  delimiters := None
|}.

(** A path completer with the delimiters [d], as [text] configures it. *)
Definition completer_with_delimiters (d : str) : PathCompleter := {|
  only_directories := false;
  get_paths := fun _ => Ok [u "."];
  file_filter := fun _ _ => Ok true;
  min_input_len := 0;
  expanduser := true;
  delimiters := Some d
|}.

(** The working text as the specification words it: the trimmed text
    before the cursor is split at every character of the delimiter set,
    and the last segment that is not empty is taken. *)
Definition claimed_working_text (delimiters text_before_cursor : str)
    : option str :=
  last (List.filter (fun segment => negb (bool_decide (segment = [])))
          (Str.split_at (fun c => Str.mem c delimiters)
                        (Str.strip text_before_cursor))).

(** Word completers for the concrete requests: the words of the
    specification's scenarios, matched against the whole text before the
    cursor, and one word that starts with U+0130. *)
Definition scenario_words (ws : list str) (ignore_case match_middle : bool)
    : Word.WordCompleter := {|
  Word.words := Word.Words ws;
  Word.ignore_case := ignore_case;
  Word.meta_dict := ∅;
  Word.WORD := false;
  Word.sentence := true;
  Word.match_middle := match_middle;
  Word.pattern := None
|}.

(** [İstanbul] *)
Definition Istanbul : str := 304%N :: u "stanbul".

(** The path completer that differs from [ExecutableCompleter] in one
    point: its search paths are the fixed list [paths]. *)
Definition executables_in (paths : list str) : PathCompleter := {|
  only_directories := false;
  get_paths := fun _ => Ok paths;
  file_filter := executable_filter;
  min_input_len := 1;
  expanduser := true;
  delimiters := None
|}.

(** A path completer that looks into [paths] and offers directories
    only. *)
Definition directories_in (paths : list str) : PathCompleter := {|
  only_directories := true;
  get_paths := fun _ => Ok paths;
  file_filter := fun _ _ => Ok true;
  min_input_len := 0;
  expanduser := false;
  delimiters := None
|}.

(** The word completer [self] with [match_middle] set to [b]. *)
Definition with_match_middle (b : bool) (self : Word.WordCompleter)
    : Word.WordCompleter := {|
  Word.words := Word.words self;
  Word.ignore_case := Word.ignore_case self;
  Word.meta_dict := Word.meta_dict self;
  Word.WORD := Word.WORD self;
  Word.sentence := Word.sentence self;
  Word.match_middle := b;
  Word.pattern := Word.pattern self
|}.

(** * Properties *)

(** ** Strings *)

Section str_facts.

Implicit Types s p sub a b c : str.

Lemma startswith_app s p : Str.startswith (p ++ s) p = true.
Proof.
  induction p as [|x p IH]; simpl; [done|].
  by rewrite N.eqb_refl.
Qed.

Lemma startswith_drop s p :
  Str.startswith s p = true → s = p ++ drop (length p) s.
Proof.
  revert s; induction p as [|x p IH]; intros [|y s]; simpl; try done.
  intros [Hxy Hs]%andb_prop.
  apply N.eqb_eq in Hxy as ->. f_equal. by apply IH.
Qed.

Lemma startswith_spec s p :
  Str.startswith s p = true ↔ ∃ rest, s = p ++ rest.
Proof.
  split.
  - intros H. eexists. by apply startswith_drop.
  - intros [rest ->]. apply startswith_app.
Qed.

Lemma contains_spec s sub :
  Str.contains s sub = true ↔ ∃ pre post, s = pre ++ sub ++ post.
Proof.
  induction s as [|x s IH]; simpl.
  - rewrite orb_false_r. split.
    + intros [rest Hr]%startswith_spec. by exists [], rest.
    + intros (pre & post & H). symmetry in H.
      apply app_eq_nil in H as [-> [-> ->]%app_eq_nil]. done.
  - rewrite orb_true_iff, IH. split.
    + intros [[rest Hr]%startswith_spec | (pre & post & ->)].
      * by exists [], rest.
      * by exists (x :: pre), post.
    + intros ([|y pre] & post & H); simpl in H.
      * left. apply startswith_spec. by exists post.
      * right. injection H as -> ->. by exists pre, post.
Qed.

Lemma lt_irrefl a : Str.lt a a = false.
Proof.
  induction a as [|x a IH]; simpl; [done|].
  by rewrite N.ltb_irrefl, N.eqb_refl, IH.
Qed.

Lemma lt_trichotomy a b :
  Str.lt a b = true ∨ a = b ∨ Str.lt b a = true.
Proof.
  revert b; induction a as [|x a IH]; intros [|y b]; simpl; auto.
  destruct (N.compare_spec x y) as [->|Hlt|Hgt].
  - rewrite N.ltb_irrefl, N.eqb_refl; simpl.
    destruct (IH b) as [?|[->|?]]; auto.
  - left. apply N.ltb_lt in Hlt. by rewrite Hlt.
  - right; right. apply N.ltb_lt in Hgt. by rewrite Hgt.
Qed.

Lemma lt_trans a b c :
  Str.lt a b = true → Str.lt b c = true → Str.lt a c = true.
Proof.
  revert b c; induction a as [|x a IH]; intros [|y b] [|z c]; simpl;
    try done.
  rewrite !orb_true_iff, !andb_true_iff, !N.ltb_lt, !N.eqb_eq.
  intros [?|[-> Hab]] [?|[-> Hbc]]; eauto with lia.
Qed.

Lemma lt_asym a b : Str.lt a b = true → Str.lt b a = false.
Proof.
  intros Hab. destruct (Str.lt b a) eqn:Hba; [|done].
  pose proof (lt_trans _ _ _ Hab Hba) as H.
  by rewrite lt_irrefl in H.
Qed.

Lemma le_refl a : Str.le a a = true.
Proof. unfold Str.le. by rewrite lt_irrefl. Qed.

Lemma lt_le a b : Str.lt a b = true → Str.le a b = true.
Proof. intros H. unfold Str.le. by rewrite (lt_asym _ _ H). Qed.

Lemma le_trans a b c :
  Str.le a b = true → Str.le b c = true → Str.le a c = true.
Proof.
  unfold Str.le. rewrite !negb_true_iff. intros Hba Hcb.
  destruct (Str.lt c a) eqn:Hca; [|done].
  destruct (lt_trichotomy a b) as [Hab|[->|Hab]]; [|congruence..].
  pose proof (lt_trans _ _ _ Hca Hab). congruence.
Qed.

Lemma le_antisym a b : Str.le a b = true → Str.le b a = true → a = b.
Proof.
  unfold Str.le. rewrite !negb_true_iff. intros Hba Hab.
  destruct (lt_trichotomy a b) as [?|[?|?]]; congruence.
Qed.

End str_facts.

Global Instance by_filename_trans : Transitive by_filename.
Proof. intros x y z. apply le_trans. Qed.

Global Instance by_filename_refl : Reflexive by_filename.
Proof. intros x. apply le_refl. Qed.

(** ** [sorted] is the stable sort by filename *)

Section sorted_facts.

Implicit Types l : list (str * str).

Lemma insert_by_filename_Permutation x l :
  insert_by_filename x l ≡ₚ x :: l.
Proof.
  induction l as [|y l IH]; simpl; [done|].
  destruct (Str.lt (snd y) (snd x)); [|done].
  rewrite IH. apply Permutation_swap.
Qed.

Lemma sorted_Permutation l : sorted l ≡ₚ l.
Proof.
  induction l as [|x l IH]; simpl; [done|].
  by rewrite insert_by_filename_Permutation, IH.
Qed.

Lemma insert_by_filename_Sorted x l :
  StronglySorted by_filename l →
  StronglySorted by_filename (insert_by_filename x l).
Proof.
  induction 1 as [|y l Hl IH Hy]; simpl.
  - repeat constructor.
  - destruct (Str.lt (snd y) (snd x)) eqn:Hyx.
    + constructor; [done|].
      rewrite insert_by_filename_Permutation.
      constructor; [by apply lt_le | done].
    + assert (by_filename x y) as Hxy.
      { unfold by_filename, Str.le. by rewrite Hyx. }
      constructor; [by constructor|].
      constructor; [done|].
      eapply Forall_impl; [exact Hy|].
      intros z Hz. by transitivity y.
Qed.

Lemma sorted_Sorted l : StronglySorted by_filename (sorted l).
Proof.
  induction l as [|x l IH]; simpl; [constructor|].
  by apply insert_by_filename_Sorted.
Qed.

(** Stability: the pairs that share a filename keep the order they had. *)
Lemma insert_by_filename_stable k x l :
  List.filter (fun y => bool_decide (snd y = k)) (insert_by_filename x l)
  = List.filter (fun y => bool_decide (snd y = k)) (x :: l).
Proof.
  induction l as [|y l IH]; [done|].
  cbn [insert_by_filename].
  destruct (Str.lt (snd y) (snd x)) eqn:Hyx; [|done].
  cbn [List.filter] in *. rewrite IH.
  destruct (bool_decide_reflect (snd x = k)) as [Hx|Hx]; [|done].
  destruct (bool_decide_reflect (snd y = k)) as [Hk|Hk]; [|done].
  exfalso. rewrite Hx, Hk in Hyx. by rewrite lt_irrefl in Hyx.
Qed.

Lemma sorted_stable k l :
  List.filter (fun y => bool_decide (snd y = k)) (sorted l)
  = List.filter (fun y => bool_decide (snd y = k)) l.
Proof.
  induction l as [|x l IH]; [done|].
  cbn [sorted foldr]. fold (sorted l).
  rewrite insert_by_filename_stable.
  cbn [List.filter]. by rewrite IH.
Qed.

End sorted_facts.

(** ** The path completer *)

Ltac unfold_result :=
  unfold mbind, result_bind, G.call, G.yield, G.fail, G.ret,
    G.except_OSError in *; simpl in *.

Lemma sublist_StronglySorted {A} (R : relation A) (k l : list A) :
  k `sublist_of` l → StronglySorted R l → StronglySorted R k.
Proof.
  induction 1 as [|x k l Hs IH|x k l Hs IH]; intros Hl.
  - constructor.
  - apply StronglySorted_inv in Hl as [Hl Hx].
    constructor; [by apply IH|].
    apply Forall_forall. intros y Hy.
    eapply Forall_forall in Hx; [exact Hx|].
    by eapply elem_of_sublist.
  - apply StronglySorted_inv in Hl as [Hl _]. by apply IH.
Qed.

Section path_facts.

Variable self : PathCompleter.
Variable w : World.

Implicit Types (prefix t : str) (fs : list (str * str)) (x : str * str).

(** What the loop yields: the completions of a subsequence of the pairs,
    in order. *)
Lemma yield_completions_kept prefix fs :
  ∃ kept, kept `sublist_of` fs ∧ Forall (passes self w) kept ∧
    yielded (yield_completions self w prefix fs)
    = completion_of w prefix <$> kept.
Proof.
  induction fs as [|[d f] fs (kept & Hsub & Hpass & Hy)].
  { exists []. by repeat split. }
  cbn [yield_completions].
  destruct (os_path_isdir w (os_path_join d f)) eqn:Hdir;
    [|destruct (only_directories self) eqn:Hod];
    try (destruct (file_filter self w (os_path_join d f)) as [[|]|e] eqn:Hf);
    unfold_result.
  all: try (exists kept; split; [by constructor|done]).
  all: try (exists []; split; [apply sublist_nil_l|done]).
  all: exists ((d, f) :: kept); split; [by constructor|].
  all: split; [constructor; [|done]; split; [|done]; unfold filtered; auto|].
  all: rewrite Hy; unfold completion_of, new_Completion; simpl.
  all: by rewrite Hdir.
Qed.

(** Where a listed pair comes from. *)
Lemma filenames_elem prefix dirs fs x :
  filenames w prefix dirs = Ok fs → x ∈ fs →
  x.1 ∈ dirs ∧ os_path_isdir w x.1 = true ∧
  ∃ names, os_listdir w x.1 = Some names ∧ x.2 ∈ names ∧
           Str.startswith x.2 prefix = true.
Proof.
  revert fs; induction dirs as [|d dirs IH]; intros fs Hfs Hx.
  { injection Hfs as <-. by apply elem_of_nil in Hx. }
  cbn [filenames] in Hfs.
  destruct (filenames w prefix dirs) as [more|] eqn:Hmore;
    destruct (os_path_isdir w d) eqn:Hdir;
    try destruct (os_listdir w d) as [names|] eqn:Hls;
    unfold_result; try discriminate; injection Hfs as <-.
  - apply elem_of_app in Hx as [Hx|Hx].
    + apply list_elem_of_fmap in Hx as (f & -> & Hf). simpl.
      apply list_elem_of_In, filter_In in Hf as [Hf Hp].
      split; [left|]. split; [done|].
      exists names. by rewrite list_elem_of_In.
    + destruct (IH more eq_refl Hx) as (? & ? & ?).
      split; [by right|done].
  - destruct (IH more eq_refl Hx) as (? & ? & ?).
    split; [by right|done].
  - destruct (IH more eq_refl Hx) as (? & ? & ?).
    split; [by right|done].
Qed.

(** The listing raises nothing but [OSError], and raises it as soon as one
    directory cannot be listed. *)
Lemma filenames_Raise prefix dirs e :
  filenames w prefix dirs = Raise e → e = OSError.
Proof.
  induction dirs as [|d dirs IH]; [done|].
  cbn [filenames].
  destruct (filenames w prefix dirs) as [more|e'] eqn:Hmore;
    destruct (os_path_isdir w d) eqn:Hdir;
    try destruct (os_listdir w d) as [names|] eqn:Hls;
    unfold_result; try discriminate; intros [= <-]; auto.
Qed.

Lemma filenames_OSError prefix dirs d :
  d ∈ dirs → os_path_isdir w d = true → os_listdir w d = None →
  filenames w prefix dirs = Raise OSError.
Proof.
  intros Hd Hdir Hls.
  induction dirs as [|d' dirs IH]; [by apply elem_of_nil in Hd|].
  cbn [filenames].
  apply elem_of_cons in Hd as [<-|Hd].
  - by rewrite Hdir, Hls.
  - rewrite (IH Hd).
    destruct (os_path_isdir w d'); [destruct (os_listdir w d')|]; done.
Qed.

(** The loop propagates the first exception of [file_filter]. *)
Lemma yield_completions_raised prefix before x after e :
  (∀ y, y ∈ before → filtered self w y →
        ∃ keep, file_filter self w (os_path_join y.1 y.2) = Ok keep) →
  filtered self w x →
  file_filter self w (os_path_join x.1 x.2) = Raise e →
  raised (yield_completions self w prefix (before ++ x :: after)) = Some e.
Proof.
  intros Hbefore Hx He.
  induction before as [|[d f] before IH]; simpl.
  - destruct x as [d f]; unfold filtered in Hx; simpl in *. rewrite He.
    destruct Hx as [Hx|Hx]; rewrite Hx; [done|].
    by destruct (os_path_isdir w (os_path_join d f)).
  - assert (raised (yield_completions self w prefix (before ++ x :: after))
            = Some e) as Hrest.
    { apply IH. intros y Hy. apply Hbefore. by right. }
    destruct (os_path_isdir w (os_path_join d f)) eqn:Hdir;
      [|destruct (only_directories self) eqn:Hod; [done|]].
    all: destruct (Hbefore (d, f)) as [keep Hkeep];
      [by left|unfold filtered; simpl; auto|].
    all: simpl in Hkeep; rewrite Hkeep; by destruct keep.
Qed.

(** The three ways a request ends. *)
Lemma get_completions_unfold text_before_cursor t :
  working_text self text_before_cursor = Ok t →
  (min_input_len self ≤ Z.of_nat (length t))%Z →
  get_completions self w text_before_cursor
  = G.frame (completions_of self w t).
Proof.
  intros Ht Hlen. unfold get_completions. rewrite Ht. cbn [G.call].
  by rewrite (proj2 (Z.ltb_ge _ _) Hlen).
Qed.

Lemma get_completions_kept text_before_cursor :
  yielded (get_completions self w text_before_cursor) = [] ∨
  ∃ t dirs fs kept,
    working_text self text_before_cursor = Ok t ∧
    directories self w (expanded self w t) = Ok dirs ∧
    filenames w (os_path_basename (expanded self w t)) dirs = Ok fs ∧
    kept `sublist_of` sorted fs ∧
    Forall (passes self w) kept ∧
    yielded (get_completions self w text_before_cursor)
    = completion_of w (os_path_basename (expanded self w t)) <$> kept.
Proof.
  unfold get_completions, G.frame. cbn [yielded].
  destruct (working_text self text_before_cursor) as [t|e] eqn:Ht;
    [|by left].
  simpl. destruct (Z.of_nat (length t) <? min_input_len self)%Z; [by left|].
  unfold completions_of. cbv zeta.
  destruct (directories self w (expanded self w t)) as [dirs|e] eqn:Hd;
    [|by left].
  cbn [G.call].
  destruct (filenames w (os_path_basename (expanded self w t)) dirs)
    as [fs|e] eqn:Hfs; [|by left].
  destruct (yield_completions_kept (os_path_basename (expanded self w t))
              (sorted fs)) as (kept & Hsub & Hpass & Hy).
  right. exists t, dirs, fs, kept. by repeat split.
Qed.

End path_facts.

(** The scenario of the specification: [/tmp/x] holds [alpha.txt], the
    directory [alphabet] and [beta.txt], and [/tmp/x/al] is typed. *)
Example scenario_tmp_x :
  get_completions (completer_in [u "/tmp"]) example_world (u "/tmp/x/al")
  = Gen [mkCompletion (u "pha.txt") 0 (u "alpha.txt") [];
         mkCompletion (u "phabet") 0 (u "alphabet/") []] None.
Proof. by vm_compute. Qed.

(** The default configuration is the completer of the current directory. *)
Example PathCompleter_init_default :
  PathCompleter_init [] = Ok (completer_in [u "."]).
Proof. reflexivity. Qed.

(** *** Insertion text and start position (C1) *)

(** C1, as amended: every candidate the path completer emits comes from a
    filename listed in a searched directory; its insertion text is that
    filename without its first [len(prefix)] characters, so that the typed
    prefix followed by the insertion text spells the filename; and its
    start position is 0: nothing is deleted before the cursor. *)
Theorem path_completion_text_and_start_position
    (self : PathCompleter) (w : World) (text_before_cursor : str)
    (c : Completion) :
  c ∈ yielded (get_completions self w text_before_cursor) →
  ∃ t directory names filename,
    working_text self text_before_cursor = Ok t ∧
    os_listdir w directory = Some names ∧
    filename ∈ names ∧
    let prefix := os_path_basename (expanded self w t) in
    text c = drop (length prefix) filename ∧
    prefix ++ text c = filename ∧
    start_position c = 0%Z.
Proof.
  intros Hc.
  destruct (get_completions_kept self w text_before_cursor)
    as [Hnil|(t & dirs & fs & kept & Ht & Hd & Hfs & Hsub & _ & Hy)].
  { rewrite Hnil in Hc. by apply elem_of_nil in Hc. }
  rewrite Hy in Hc.
  apply list_elem_of_fmap in Hc as ([d f] & -> & Hx).
  assert ((d, f) ∈ fs) as Hin.
  { rewrite <- (sorted_Permutation fs). by eapply elem_of_sublist. }
  destruct (filenames_elem w _ _ _ _ Hfs Hin)
    as (_ & _ & names & Hls & Hf & Hstart).
  exists t, d, names, f. simpl in *.
  repeat split; try done.
  symmetry. by apply startswith_drop.
Qed.

Lemma path_completion_text_and_start_position_witness :
  ∃ t directory names filename,
    working_text (completer_in [u "."]) (u "a") = Ok t ∧
    os_listdir example_world directory = Some names ∧
    filename ∈ names ∧
    let prefix := os_path_basename (expanded (completer_in [u "."])
                                             example_world t) in
    u "b" = drop (length prefix) filename ∧
    prefix ++ u "b" = filename ∧
    0%Z = 0%Z.
Proof.
  apply (path_completion_text_and_start_position
           (completer_in [u "."]) example_world (u "a")
           (mkCompletion (u "b") 0 (u "ab") [])).
  vm_compute. do 2 apply list_elem_of_further. apply list_elem_of_here.
Defined.

(** C1 as stated fails: with [a] typed in a directory that holds [ab], the
    candidate inserts [b] at start position 0, not at [-len(prefix)] = -1. *)
Lemma path_completion_start_position_counterexample :
  os_path_basename (u "a") = u "a" ∧
  mkCompletion (u "b") 0 (u "ab") []
    ∈ yielded (get_completions (completer_in [u "."]) example_world (u "a")) ∧
  ¬ (∀ c, c ∈ yielded (get_completions (completer_in [u "."]) example_world
                                       (u "a")) →
          start_position c = (- Z.of_nat (length (os_path_basename (u "a"))))%Z).
Proof.
  assert (mkCompletion (u "b") 0 (u "ab") []
    ∈ yielded (get_completions (completer_in [u "."]) example_world (u "a")))
    as Hin.
  { vm_compute. do 2 apply list_elem_of_further. apply list_elem_of_here. }
  split; [done|]. split; [done|].
  intros H. specialize (H _ Hin). vm_compute in H. discriminate.
Qed.

(** *** Order of the candidates (C6) *)

(** C6, as amended: the emitted candidates are the completions of pairs
    that are sorted by filename, whatever directory each comes from; the
    display text of a candidate is its filename, followed by [/] when the
    entry is a directory ([completion_of]), and the order is that of the
    filenames without this suffix. *)
Theorem path_candidates_sorted_by_filename
    (self : PathCompleter) (w : World) (text_before_cursor : str) :
  ∃ prefix pairs,
    StronglySorted by_filename pairs ∧
    yielded (get_completions self w text_before_cursor)
    = completion_of w prefix <$> pairs.
Proof.
  destruct (get_completions_kept self w text_before_cursor)
    as [Hnil|(t & dirs & fs & kept & Ht & Hd & Hfs & Hsub & _ & Hy)].
  - exists [], []. split; [constructor|done].
  - exists (os_path_basename (expanded self w t)), kept.
    split; [|done].
    eapply sublist_StronglySorted; [exact Hsub|apply sorted_Sorted].
Qed.

(** C6 as stated fails: the directory [a] sorts before the file [a.b] by
    filename, and their display texts [a/] and [a.b] are then in descending
    order, since [.] is smaller than [/]. *)
Lemma path_candidates_display_order_counterexample :
  display <$> yielded (get_completions (completer_in [u "."]) example_world
                                       (u "a"))
  = [u "a/"; u "a.b"; u "ab"] ∧
  Str.lt (u "a.b") (u "a/") = true ∧
  ¬ StronglySorted (fun a b => Str.le a b = true)
      (display <$> yielded (get_completions (completer_in [u "."])
                                            example_world (u "a"))).
Proof.
  split; [by vm_compute|]. split; [by vm_compute|].
  intros H. vm_compute in H.
  apply StronglySorted_inv in H as [_ H].
  apply Forall_inv in H. discriminate.
Qed.

(** *** Errors of the file system (C4) *)

(** C4, as amended: when one of the candidate directories exists and
    listing it fails, the request ends without an error and returns no
    candidate at all, whatever the other directories hold. *)
Theorem listing_error_ends_request
    (self : PathCompleter) (w : World) (text_before_cursor t : str)
    (dirs : list str) (d : str) :
  working_text self text_before_cursor = Ok t →
  directories self w (expanded self w t) = Ok dirs →
  d ∈ dirs →
  os_path_isdir w d = true →
  os_listdir w d = None →
  get_completions self w text_before_cursor = Gen [] None.
Proof.
  intros Ht Hd Hin Hdir Hls.
  unfold get_completions. rewrite Ht. simpl.
  destruct (Z.of_nat (length t) <? min_input_len self)%Z; [done|].
  unfold completions_of. cbv zeta. rewrite Hd. cbn [G.call].
  by rewrite (filenames_OSError w _ dirs d Hin Hdir Hls).
Qed.

Lemma listing_error_ends_request_witness :
  get_completions (completer_in [u "/locked"; u "/bin"]) example_world (u "l")
  = Gen [] None.
Proof.
  apply (listing_error_ends_request
           (completer_in [u "/locked"; u "/bin"]) example_world (u "l")
           (u "l") [u "/locked"; u "/bin"] (u "/locked")).
  - reflexivity.
  - reflexivity.
  - apply list_elem_of_here.
  - reflexivity.
  - reflexivity.
Defined.

(** C4 as stated fails: [/bin] alone yields the candidate [ls], and the
    same request with the unreadable directory [/locked] searched as well
    yields nothing. *)
Lemma listing_error_counterexample :
  os_path_isdir example_world (u "/locked") = true ∧
  os_listdir example_world (u "/locked") = None ∧
  get_completions (completer_in [u "/bin"]) example_world (u "l")
  = Gen [mkCompletion (u "s") 0 (u "ls") []] None ∧
  get_completions (completer_in [u "/locked"; u "/bin"]) example_world (u "l")
  = Gen [] None.
Proof. by vm_compute. Qed.

(** *** Exceptions of the caller's functions (C5) *)



(** A [StopIteration] of [get_paths] reaches the caller as a
    [RuntimeError]. *)
Example supplier_StopIteration :
  get_completions (completer_raising StopIteration) example_world (u "a")
  = Gen [] (Some RuntimeError).
Proof. by vm_compute. Qed.

(** The other half: an [OSError] of [get_paths] or [file_filter] is caught
    by the completer and ends the request quietly. *)
Lemma supplier_OSError_swallowed
    (self : PathCompleter) (w : World) (text_before_cursor : str) :
  supplier_raises self w text_before_cursor OSError →
  raised (get_completions self w text_before_cursor) = None.
Proof.
  intros [t Ht Hlen Hp|t dirs fs before x after Ht Hlen Hd Hfs Hs Hb Hx Hf].
  - rewrite (get_completions_unfold self w _ t Ht Hlen).
    unfold completions_of, directories. cbv zeta. rewrite Hp.
    by destruct (os_path_dirname (expanded self w t)).
  - rewrite (get_completions_unfold self w _ t Ht Hlen).
    unfold completions_of. cbv zeta. rewrite Hd. cbn [G.call].
    rewrite Hfs. cbn [G.call]. rewrite Hs. simpl.
    by rewrite (yield_completions_raised self w _ before x after _ Hb Hx Hf).
Qed.


(** ** The delimiters (C2) *)

Section split_facts.

Implicit Types (s cur d : str) (p : N → bool).

(** A string without whitespace is one token of [str.split()]. *)
Lemma split_go_no_space cur d :
  Forall (fun c => Str.isspace c = false) d → cur ++ d ≠ [] →
  Str.split_go cur d = [cur ++ d].
Proof.
  intros Hd. revert cur.
  induction Hd as [|c d Hc Hd IH]; intros cur Hne; simpl.
  - rewrite app_nil_r in *. by destruct cur.
  - rewrite Hc, IH, <- app_assoc; [done|].
    rewrite <- app_assoc. simpl. by destruct cur.
Qed.

Lemma split_no_space d :
  d ≠ [] → Forall (fun c => Str.isspace c = false) d → Str.split d = [d].
Proof. intros Hne Hd. by apply (split_go_no_space []). Qed.

(** The tokens of [str.split()] are not empty. *)
Lemma split_go_nonempty cur s :
  Forall (fun tok => tok ≠ []) (Str.split_go cur s).
Proof.
  revert cur; induction s as [|c s IH]; intros cur; simpl.
  - destruct cur; repeat constructor; done.
  - destruct (Str.isspace c); [|apply IH].
    destruct cur; [apply IH|]. constructor; [done|apply IH].
Qed.

(** [split_at] always returns a last segment; no segment holds a
    separator; the last segment is what follows the last separator. *)
Lemma split_at_go_last p cur s :
  ∃ segment, last (Str.split_at_go p cur s) = Some segment.
Proof.
  revert cur; induction s as [|c s IH]; intros cur; simpl; [by eexists|].
  destruct (p c); [|apply IH].
  destruct (IH []) as [seg Hseg]. exists seg.
  destruct (Str.split_at_go p [] s); [done|]. by rewrite last_cons_cons.
Qed.

Lemma split_at_go_segments p cur s :
  Forall (fun c => p c = false) cur →
  Forall (Forall (fun c => p c = false)) (Str.split_at_go p cur s).
Proof.
  revert cur; induction s as [|c s IH]; intros cur Hcur; simpl.
  - by constructor.
  - destruct (p c) eqn:Hc.
    + constructor; [done|]. by apply IH.
    + apply IH. apply Forall_app. split; [done|]. by constructor.
Qed.

Lemma split_at_go_no_separator p cur s :
  Forall (fun c => p c = false) s →
  Str.split_at_go p cur s = [cur ++ s].
Proof.
  intros Hs. revert cur.
  induction Hs as [|c s Hc Hs IH]; intros cur; simpl.
  - by rewrite app_nil_r.
  - by rewrite Hc, IH, <- app_assoc.
Qed.

Lemma split_at_go_after_last p cur a c b :
  p c = true → Forall (fun x => p x = false) b →
  last (Str.split_at_go p cur (a ++ c :: b)) = Some b.
Proof.
  intros Hc Hb. revert cur.
  induction a as [|x a IH]; intros cur; simpl.
  - rewrite Hc. by rewrite (split_at_go_no_separator p [] b Hb).
  - destruct (p x); [|apply IH].
    specialize (IH []).
    destruct (Str.split_at_go p [] (a ++ c :: b)); [done|].
    by rewrite last_cons_cons.
Qed.

Lemma split_at_ext p q s :
  (∀ c, p c = q c) → Str.split_at p s = Str.split_at q s.
Proof.
  intros Hpq. unfold Str.split_at. generalize (@nil N) as cur.
  induction s as [|c s IH]; intros cur; simpl; [done|].
  by rewrite Hpq, !IH.
Qed.

End split_facts.

Section re_facts.

Implicit Types (s tok acc rest : str) (toks : list str).

Lemma is_special_not_alnum c :
  Re.is_special c = true → Re.is_ascii_alnum c = false.
Proof.
  unfold Re.is_special, Str.mem.
  intros (x & Hin & ->%N.eqb_eq)%existsb_exists.
  simpl in Hin. repeat destruct Hin as [<-|Hin]; done.
Qed.

(** A character [re.escape] leaves alone is none of the characters that
    are special inside a character set. *)
Lemma not_special_literal c :
  Re.is_special c = false →
  (c =? ch "]")%N = false ∧ (c =? ch "\")%N = false ∧
  ((c =? ch "-")%N || (c =? ch "[")%N) = false ∧ (c =? ch "^")%N = false.
Proof.
  intros Hc.
  repeat split; try apply orb_false_intro; apply N.eqb_neq; intros ->;
    by vm_compute in Hc.
Qed.

(** Reading an escaped token adds its characters to the members. *)
Lemma set_items_escape tok rest acc :
  Re.set_items (Re.escape tok ++ rest) acc
  = Re.set_items rest (reverse tok ++ acc).
Proof.
  revert acc; induction tok as [|c tok IH]; intros acc; [done|].
  rewrite reverse_cons, <- app_assoc. cbn [Re.escape app].
  destruct (Re.is_special c) eqn:Hc.
  - cbn [app Re.set_items].
    replace (ch "\" =? ch "]")%N with false by done.
    replace (ch "\" =? ch "\")%N with true by done.
    by rewrite (is_special_not_alnum c Hc), IH.
  - destruct (not_special_literal c Hc) as (H1 & H2 & H3 & _).
    cbn [app Re.set_items]. by rewrite H1, H2, H3, IH.
Qed.

(** The members of the set built from the tokens are the characters of
    the tokens and, between two tokens, the [|] that joins them. *)
Lemma set_items_join toks acc :
  toks ≠ [] →
  Re.set_items (Str.join (u "|") (Re.escape <$> toks) ++ u "]") acc
  = Ok (reverse acc ++ Str.join (u "|") toks).
Proof.
  revert acc; induction toks as [|tok toks IH]; intros acc Hne; [done|].
  destruct toks as [|tok' toks].
  - cbn [fmap list_fmap Str.join]. rewrite set_items_escape.
    simpl. by rewrite reverse_app, reverse_involutive.
  - change (Str.join (u "|") (Re.escape <$> tok :: tok' :: toks))
      with (Re.escape tok ++ u "|"
            ++ Str.join (u "|") (Re.escape <$> tok' :: toks)).
    change (Str.join (u "|") (tok :: tok' :: toks))
      with (tok ++ u "|" ++ Str.join (u "|") (tok' :: toks)).
    rewrite <- !app_assoc, set_items_escape.
    change (u "|" ++ ?x) with (ch "|" :: x).
    cbn [Re.set_items].
    replace (ch "|" =? ch "]")%N with false by done.
    replace (ch "|" =? ch "\")%N with false by done.
    replace ((ch "|" =? ch "-")%N || (ch "|" =? ch "[")%N) with false by done.
    rewrite IH by done.
    rewrite reverse_cons, reverse_app, reverse_involutive.
    by rewrite <- !app_assoc.
Qed.

(** The pattern starts its set with a backslash or an ordinary
    character, never with [\]] or [^]. *)
Lemma join_escape_head tok toks :
  tok ≠ [] →
  ∃ c body, Str.join (u "|") (Re.escape <$> tok :: toks) = c :: body ∧
            (c =? ch "]")%N = false ∧ (c =? ch "^")%N = false.
Proof.
  intros Hne. destruct tok as [|c tok]; [done|].
  assert (∃ c' body, Re.escape (c :: tok) = c' :: body ∧
            (c' =? ch "]")%N = false ∧ (c' =? ch "^")%N = false)
    as (c' & body & He & H1 & H2).
  { cbn [Re.escape]. destruct (Re.is_special c) eqn:Hc.
    - by eexists _, _.
    - destruct (not_special_literal c Hc) as (? & _ & _ & ?).
      by eexists _, _. }
  destruct toks as [|tok' toks]; cbn [fmap list_fmap Str.join].
  - by exists c', body.
  - rewrite He. by exists c', (body ++ u "|"
      ++ Str.join (u "|") (list_fmap _ _ Re.escape (tok' :: toks))).
Qed.

(** What the pattern of line 45 compiles to, for every delimiter string:
    an error when the string holds no token, and otherwise the set of the
    characters of its tokens, with [|] when there are several tokens. *)
Lemma regexPattern_members d :
  Re.compile_set (regexPattern d)
  = match Str.split d with
    | [] => Raise re_error
    | toks => Ok (Str.join (u "|") toks)
    end.
Proof.
  unfold regexPattern.
  pose proof (split_go_nonempty [] d) as Hne. fold (Str.split d) in Hne.
  destruct (Str.split d) as [|tok toks]; [done|].
  apply Forall_cons in Hne as [Htok _].
  destruct (join_escape_head tok toks Htok) as (c & body & Hj & H1 & H2).
  pose proof (set_items_join (tok :: toks) [] ltac:(done)) as Hs.
  rewrite Hj in *.
  change (u "[" ++ (c :: body) ++ u "]") with (ch "[" :: c :: body ++ u "]").
  cbn [Re.compile_set].
  replace (ch "[" =? ch "[")%N with true by done.
  rewrite H1, H2. exact Hs.
Qed.

Lemma regexPattern_modelled d :
  Re.compile_set (regexPattern d) ≠ Raise Unmodelled.
Proof. rewrite regexPattern_members. by destruct (Str.split d). Qed.

End re_facts.

(** The working text for every delimiter string: the request fails with
    [re.error] when the string holds no token (it is empty or all
    whitespace); otherwise the trimmed text is split at the characters of
    the tokens, and at [|] when there are several tokens, and the last
    segment, trimmed, is the working text. *)
Lemma working_text_delimiters (self : PathCompleter) (d : str)
    (text_before_cursor : str) :
  delimiters self = Some d →
  working_text self text_before_cursor
  = match Str.split d with
    | [] => Raise re_error
    | toks =>
        match last (Str.split_at (fun c => Str.mem c (Str.join (u "|") toks))
                                 (Str.strip text_before_cursor)) with
        | Some segment => Ok (Str.strip segment)
        | None => Raise IndexError
        end
    end.
Proof.
  intros Hd. unfold working_text, Re.split. rewrite Hd, regexPattern_members.
  by destruct (Str.split d).
Qed.

(** C2, as amended: when the configured delimiter string is not empty and
    holds no whitespace, the trimmed text before the cursor is split at
    every character of the delimiter string and at no other character, and
    the working text is the last segment, trimmed; this segment is empty
    when the text ends with a delimiter. *)
Theorem working_text_last_segment (self : PathCompleter) (d : str)
    (text_before_cursor : str) :
  delimiters self = Some d →
  d ≠ [] →
  Forall (fun c => Str.isspace c = false) d →
  ∃ segment,
    last (Str.split_at (fun c => Str.mem c d) (Str.strip text_before_cursor))
    = Some segment ∧
    working_text self text_before_cursor = Ok (Str.strip segment).
Proof.
  intros Hd Hne Hsp.
  rewrite (working_text_delimiters self d _ Hd), (split_no_space d Hne Hsp).
  cbn [Str.join].
  destruct (split_at_go_last (fun c => Str.mem c d) []
              (Str.strip text_before_cursor)) as [segment Hseg].
  exists segment. unfold Str.split_at. by rewrite Hseg.
Qed.

Lemma working_text_last_segment_witness :
  ∃ segment,
    last (Str.split_at (fun c => Str.mem c (u ";,")) (Str.strip (u "ls; /us")))
    = Some segment ∧
    working_text (completer_with_delimiters (u ";,")) (u "ls; /us")
    = Ok (Str.strip segment).
Proof.
  apply (working_text_last_segment (completer_with_delimiters (u ";,"))
           (u ";,") (u "ls; /us")).
  - reflexivity.
  - discriminate.
  - repeat constructor.
Defined.

(** C2 as stated fails three ways.  After a trailing delimiter the working
    text is the empty last segment, not the last segment that is not
    empty.  With the delimiters [' \t\n;,'] that [text] configures, the
    space does not split.  With the delimiters ['; ,'], the character [|],
    which is not a delimiter, splits. *)
Lemma working_text_counterexample :
  (working_text (completer_with_delimiters (u ";")) (u "a;") = Ok [] ∧
   claimed_working_text (u ";") (u "a;") = Some (u "a")) ∧
  (working_text (completer_with_delimiters text_delimiters) (u "ls /us")
   = Ok (u "ls /us") ∧
   claimed_working_text text_delimiters (u "ls /us") = Some (u "/us")) ∧
  (working_text (completer_with_delimiters (u "; ,")) (u "a|b") = Ok (u "b") ∧
   claimed_working_text (u "; ,") (u "a|b") = Some (u "a|b")).
Proof. by vm_compute. Qed.

(** ** The executable completer (C3, C10) *)

Lemma ExecutableCompleter_init_no_argument :
  ExecutableCompleter_init [] = Ok ExecutableCompleter.
Proof. reflexivity. Qed.

Lemma ExecutableCompleter_init_keyword (k : string) (v : pyval) (kw : kwargs) :
  ExecutableCompleter_init ((k, v) :: kw) = Raise TypeError.
Proof. reflexivity. Qed.

(** C3, as amended: when [path_autocomplete] is false, [text] called with
    [exec_autocomplete=True] raises [TypeError] while it constructs the
    completer, whatever [custom_autocomplete] is. *)
Theorem text_exec_autocomplete_TypeError
    (custom_autocomplete : option (list str)) :
  text_completer false true custom_autocomplete = Raise TypeError.
Proof. reflexivity. Qed.

(** C3 as stated fails: with [path_autocomplete=True] as well, [text]
    constructs the path completer and never calls [ExecutableCompleter]. *)
Lemma text_exec_autocomplete_counterexample :
  text_completer true true None
  = Ok (Some (PathCompleter_object
                (completer_with_delimiters text_delimiters))) ∧
  text_completer true true None ≠ Raise TypeError.
Proof. split; [reflexivity|discriminate]. Qed.

(** The loop raises nothing when [file_filter] never raises. *)
Lemma yield_completions_total (self : PathCompleter) (w : World)
    (prefix : str) (fs : list (str * str)) :
  (∀ name, ∃ keep, file_filter self w name = Ok keep) →
  raised (yield_completions self w prefix fs) = None.
Proof.
  intros Hf. induction fs as [|[d f] fs IH]; [done|].
  cbn [yield_completions].
  destruct (Hf (os_path_join d f)) as [keep ->].
  destruct (os_path_isdir w (os_path_join d f)), (only_directories self),
    keep; done.
Qed.

Lemma yield_completions_executable (w : World) (prefix : str)
    (fs : list (str * str)) :
  raised (yield_completions ExecutableCompleter w prefix fs) = None.
Proof. apply yield_completions_total. intros name. by eexists. Qed.

(** The loop reads its completer through [file_filter] and
    [only_directories] alone. *)
Lemma yield_completions_ext (self1 self2 : PathCompleter) (w : World)
    (prefix : str) (fs : list (str * str)) :
  file_filter self1 = file_filter self2 →
  only_directories self1 = only_directories self2 →
  yield_completions self1 w prefix fs = yield_completions self2 w prefix fs.
Proof.
  intros Hf Ho. induction fs as [|[d f] fs IH]; [done|].
  cbn [yield_completions]. by rewrite Hf, Ho, IH.
Qed.

(** C10, as amended: the completer constructed once reads [PATH] from the
    environment of each call: a call answers as the path completer whose
    search paths are the entries of [PATH] in the environment of that
    call.  When [PATH] is unset or empty, a call whose text, once
    [os.path.expanduser] has expanded it, has no directory part yields no
    candidate and raises nothing. *)
Theorem executable_completer_PATH (w : World) (text_before_cursor : str) :
  get_completions ExecutableCompleter w text_before_cursor
  = get_completions
      (executables_in
         (Str.split_at (fun c => (c =? os_pathsep)%N)
                       (default [] (os_environ w !! u "PATH"))))
      w text_before_cursor ∧
  (os_environ w !! u "PATH" = None ∨ os_environ w !! u "PATH" = Some [] →
   os_path_dirname (os_path_expanduser w (Str.strip text_before_cursor)) = [] →
   get_completions ExecutableCompleter w text_before_cursor = Gen [] None).
Proof.
  set (paths := Str.split_at (fun c => (c =? os_pathsep)%N)
                             (default [] (os_environ w !! u "PATH"))).
  unfold get_completions, working_text.
  change (delimiters ExecutableCompleter) with (@None str).
  change (delimiters (executables_in paths)) with (@None str).
  change (min_input_len ExecutableCompleter) with 1%Z.
  change (min_input_len (executables_in paths)) with 1%Z.
  cbn [G.call].
  destruct (Z.of_nat (length (Str.strip text_before_cursor)) <? 1)%Z;
    [by split|].
  unfold completions_of, directories, expanded.
  change (expanduser ExecutableCompleter) with true.
  change (expanduser (executables_in paths)) with true.
  change (get_paths ExecutableCompleter w) with (@Ok (list str) paths).
  change (get_paths (executables_in paths) w) with (@Ok (list str) paths).
  cbv zeta.
  set (t := os_path_expanduser w (Str.strip text_before_cursor)).
  split.
  - destruct (os_path_dirname t); cbn [mbind result_bind G.call].
    all: match goal with
         | |- context [filenames ?w' ?p ?ds] =>
             destruct (filenames w' p ds) as [fs|e]
         end.
    all: cbn [G.call]; try done.
    all: by rewrite (yield_completions_ext ExecutableCompleter
                       (executables_in paths)).
  - intros HPATH Hdir. rewrite Hdir.
    assert (paths = [[]]) as ->.
    { unfold paths. by destruct HPATH as [-> | ->]. }
    cbn. by rewrite (os_path_isdir_empty w).
Qed.

Lemma executable_completer_PATH_witness :
  get_completions ExecutableCompleter example_world (u "l") = Gen [] None.
Proof.
  apply (executable_completer_PATH example_world (u "l")).
  - left. reflexivity.
  - reflexivity.
Defined.

(** One completer, two environments: the candidates follow the [PATH] of
    the call. *)
Example executable_completer_follows_PATH :
  get_completions ExecutableCompleter example_world_PATH (u "l")
  = Gen [mkCompletion (u "s") 0 (u "ls") []] None ∧
  get_completions ExecutableCompleter example_world (u "l") = Gen [] None.
Proof. by vm_compute. Qed.

(** C10 as stated fails: with [PATH] unset, a text that names a directory
    is completed from that directory. *)
Lemma executable_completer_PATH_counterexample :
  os_environ example_world !! u "PATH" = None ∧
  get_completions ExecutableCompleter example_world (u "/bin/l")
  = Gen [mkCompletion (u "s") 0 (u "ls") []] None.
Proof. by vm_compute. Qed.

(** ** The word completer (C7, C8, C9) *)

(** C9: constructing a word completer with both [WORD] and [sentence] true
    raises (the assertion of line 139 fails), whatever the other arguments
    are, so no completer exists to serve a request. *)
Theorem WordCompleter_init_WORD_and_sentence
    (words : Word.words_t) (ignore_case : bool)
    (meta_dict : option (gmap str str)) (match_middle : bool)
    (pattern : option str) :
  Word.init words ignore_case meta_dict true true match_middle pattern
  = Raise AssertionError.
Proof. reflexivity. Qed.

(** Any other combination constructs the completer. *)
Lemma WordCompleter_init_Ok
    (words : Word.words_t) (ignore_case : bool)
    (meta_dict : option (gmap str str)) (WORD sentence match_middle : bool)
    (pattern : option str) :
  WORD && sentence = false →
  ∃ self, Word.init words ignore_case meta_dict WORD sentence match_middle
                    pattern = Ok self.
Proof. intros H. unfold Word.init. rewrite H. by eexists. Qed.

Section word_facts.

Variable lower : str → str.
Variable get_word_before_cursor : bool → str → str.
Variable self : Word.WordCompleter.

Implicit Types (ws : list str) (word wbc : str).

(** The completion of line 180 for the word [a]. *)
Let completion (wbc a : str) : Completion :=
  new_Completion a (- Z.of_nat (length wbc)) None
                 (Some (default [] (Word.meta_dict self !! a))).

(** The loop yields the completions of the words that match, in the
    order of the list. *)
Lemma yield_matches_filter wbc ws :
  Word.yield_matches lower self wbc ws
  = Gen (completion wbc <$> List.filter (Word.word_matches lower self wbc) ws)
        None.
Proof.
  induction ws as [|a ws IH]; [done|].
  cbn [Word.yield_matches List.filter].
  rewrite IH. by destruct (Word.word_matches lower self wbc a).
Qed.

Lemma get_completions_filter text_before_cursor ws :
  Word.resolve_words self = Ok ws →
  Word.get_completions lower get_word_before_cursor self text_before_cursor
  = Gen (completion (Word.anchor lower get_word_before_cursor self
                                 text_before_cursor)
         <$> List.filter
               (Word.word_matches lower self
                  (Word.anchor lower get_word_before_cursor self
                               text_before_cursor)) ws)
        None.
Proof.
  intros Hws. unfold Word.get_completions. rewrite Hws. cbn [G.call].
  by rewrite yield_matches_filter.
Qed.

(** What every emitted completion carries: the word as the list has it,
    as insertion text and as display text; its meta text; and a start
    position that is minus the length of [word_before_cursor] as the
    matching uses it, that is, lower-cased when [ignore_case] is set. *)
Lemma word_completion_fields text_before_cursor ws c :
  Word.resolve_words self = Ok ws →
  c ∈ yielded (Word.get_completions lower get_word_before_cursor self
                                    text_before_cursor) →
  text c ∈ ws ∧ display c = text c ∧
  display_meta c = default [] (Word.meta_dict self !! text c) ∧
  start_position c
  = (- Z.of_nat (length (Word.anchor lower get_word_before_cursor self
                                     text_before_cursor)))%Z.
Proof.
  intros Hws. rewrite (get_completions_filter _ ws Hws). cbn [yielded].
  intros (a & -> & Ha)%list_elem_of_fmap.
  apply list_elem_of_In, filter_In in Ha as [Ha _].
  by rewrite list_elem_of_In.
Qed.

(** When lower-casing keeps the length of the typed anchor, the start
    position is minus the length of the typed anchor. *)
Lemma word_completion_start_position text_before_cursor ws c :
  let typed :=
    if Word.sentence self then text_before_cursor
    else get_word_before_cursor (Word.WORD self) text_before_cursor in
  Word.resolve_words self = Ok ws →
  length (lower typed) = length typed →
  c ∈ yielded (Word.get_completions lower get_word_before_cursor self
                                    text_before_cursor) →
  start_position c = (- Z.of_nat (length typed))%Z.
Proof.
  intros typed Hws Hlen Hc.
  destruct (word_completion_fields _ ws c Hws Hc) as (_ & _ & _ & ->).
  unfold Word.anchor. fold typed.
  destruct (Word.ignore_case self); [by rewrite Hlen|done].
Qed.

End word_facts.

(** C8: a word of the list is emitted exactly when it matches: with
    [match_middle] off, when it starts with the typed anchor; with
    [match_middle] on, when the anchor occurs somewhere in it; both are
    lower-cased first when [ignore_case] is set. *)
Theorem word_emitted_iff_matches
    (lower : str → str) (get_word_before_cursor : bool → str → str)
    (self : Word.WordCompleter) (text_before_cursor : str)
    (ws : list str) (word : str) :
  let fold := fun s => if Word.ignore_case self then lower s else s in
  let typed :=
    if Word.sentence self then text_before_cursor
    else get_word_before_cursor (Word.WORD self) text_before_cursor in
  Word.resolve_words self = Ok ws →
  word ∈ ws →
  (∃ c, c ∈ yielded (Word.get_completions lower get_word_before_cursor self
                                          text_before_cursor) ∧
        text c = word) ↔
  if Word.match_middle self
  then ∃ pre post, fold word = pre ++ fold typed ++ post
  else ∃ post, fold word = fold typed ++ post.
Proof.
  intros fold typed Hws Hword.
  rewrite (get_completions_filter lower get_word_before_cursor self _ ws Hws).
  cbn [yielded].
  assert (Word.anchor lower get_word_before_cursor self text_before_cursor
          = fold typed) as -> by done.
  transitivity (Word.word_matches lower self (fold typed) word = true).
  - split.
    + intros (c & (a & -> & Ha)%list_elem_of_fmap & Hc). simpl in Hc.
      subst a. by apply list_elem_of_In, filter_In in Ha as [_ Ha].
    + intros Hm. eexists. split.
      * apply list_elem_of_fmap. exists word. split; [done|].
        apply list_elem_of_In, filter_In. by rewrite <- list_elem_of_In.
      * done.
  - unfold Word.word_matches. fold (fold word).
    destruct (Word.match_middle self).
    + apply contains_spec.
    + apply startswith_spec.
Qed.

Lemma word_emitted_iff_matches_witness :
  (∃ c, c ∈ yielded (Word.get_completions Word.latin_lower (fun _ s => s)
                       (scenario_words [u "create"; u "update"] false true)
                       (u "eat")) ∧
        text c = u "create") ↔
  ∃ pre post, u "create" = pre ++ u "eat" ++ post.
Proof.
  apply (word_emitted_iff_matches Word.latin_lower (fun _ s => s)
           (scenario_words [u "create"; u "update"] false true) (u "eat")
           [u "create"; u "update"] (u "create")).
  - reflexivity.
  - apply list_elem_of_here.
Defined.

(** The scenarios of the specification. *)
Example scenario_match_middle :
  text <$> yielded (Word.get_completions Word.latin_lower (fun _ s => s)
                      (scenario_words [u "create"; u "update"] false true)
                      (u "eat"))
  = [u "create"].
Proof. by vm_compute. Qed.

Example scenario_ignore_case :
  yielded (Word.get_completions Word.latin_lower (fun _ s => s)
             (scenario_words [u "add"; u "remove"; u "update"] true false)
             (u "AD"))
  = [mkCompletion (u "add") (-2) (u "add") []].
Proof. by vm_compute. Qed.

(** C7 at the input on which it fails.  The typed anchor is the one
    character U+0130; lower-cased, it is the two characters U+0069 U+0307,
    with which the lower-cased [İstanbul] starts.  The word is emitted,
    with its original casing, and the start position is -2: minus the
    length of the lower-cased anchor, not of the typed one, which is 1. *)
Theorem word_completion_start_position_of_lowered_anchor
    (get_word_before_cursor : bool → str → str) :
  Word.init (Word.Words [Istanbul]) true None false true false None
  = Ok (scenario_words [Istanbul] true false) ∧
  Word.latin_lower [304%N] = [105; 775]%N ∧
  Word.get_completions Word.latin_lower get_word_before_cursor
    (scenario_words [Istanbul] true false) [304%N]
  = Gen [mkCompletion Istanbul (-2) Istanbul []] None ∧
  (- Z.of_nat (length [304%N]))%Z = (-1)%Z.
Proof. by vm_compute. Qed.

(** * Further properties of the completers *)

(** ** Trimming *)

Section strip_facts.

Implicit Types (s r t : str) (c : N).

Lemma lstrip_head s c t : Str.lstrip s = c :: t → Str.isspace c = false.
Proof.
  induction s as [|x s IH]; simpl; [done|].
  destruct (Str.isspace x) eqn:Hx; [done|]. by intros [= <- <-].
Qed.

Lemma lstrip_id s :
  (∀ c t, s = c :: t → Str.isspace c = false) → Str.lstrip s = s.
Proof.
  destruct s as [|c t]; [done|]. intros H. simpl. by rewrite (H c t).
Qed.

Lemma lstrip_snoc r c :
  Str.isspace c = false → Str.lstrip (r ++ [c]) = Str.lstrip r ++ [c].
Proof.
  intros Hc. induction r as [|x r IH]; simpl; [by rewrite Hc|].
  by destruct (Str.isspace x).
Qed.

Lemma rstrip_cons c t :
  Str.isspace c = false → Str.rstrip (c :: t) = c :: Str.rstrip t.
Proof.
  intros Hc. unfold Str.rstrip.
  by rewrite reverse_cons, (lstrip_snoc _ c Hc), reverse_snoc.
Qed.

Lemma rstrip_last s t c : Str.rstrip s = t ++ [c] → Str.isspace c = false.
Proof.
  unfold Str.rstrip. intros H.
  apply (f_equal reverse) in H.
  rewrite reverse_involutive, reverse_snoc in H.
  by apply lstrip_head in H.
Qed.

Lemma rstrip_id s :
  (∀ c t, s = t ++ [c] → Str.isspace c = false) → Str.rstrip s = s.
Proof.
  intros H. unfold Str.rstrip. rewrite lstrip_id; [apply reverse_involutive|].
  intros c t Hr. apply (H c (reverse t)).
  by rewrite <- (reverse_involutive s), Hr, reverse_cons.
Qed.

Lemma strip_head s c t : Str.strip s = c :: t → Str.isspace c = false.
Proof.
  unfold Str.strip. destruct (Str.lstrip s) as [|x r] eqn:Hl; [done|].
  pose proof (lstrip_head _ _ _ Hl) as Hx.
  rewrite (rstrip_cons _ _ Hx). by intros [= <- _].
Qed.

Lemma strip_last s t c : Str.strip s = t ++ [c] → Str.isspace c = false.
Proof. apply rstrip_last. Qed.

Lemma strip_idemp s : Str.strip (Str.strip s) = Str.strip s.
Proof.
  unfold Str.strip at 1.
  rewrite lstrip_id by (intros c t; apply strip_head).
  apply rstrip_id. intros c t. apply strip_last.
Qed.

Lemma lstrip_Forall (P : N → Prop) s : Forall P s → Forall P (Str.lstrip s).
Proof.
  induction 1 as [|x s Hx Hs IH]; simpl; [done|].
  destruct (Str.isspace x); [done|]. by constructor.
Qed.

Lemma strip_Forall (P : N → Prop) s : Forall P s → Forall P (Str.strip s).
Proof.
  intros H. unfold Str.strip, Str.rstrip.
  by apply Forall_reverse, lstrip_Forall, Forall_reverse, lstrip_Forall.
Qed.

(** [str.split()] gives no token exactly for the strings that are empty
    or all whitespace. *)
Lemma split_go_nil cur s :
  Str.split_go cur s = [] ↔ cur = [] ∧ Forall (fun c => Str.isspace c = true) s.
Proof.
  revert cur; induction s as [|c s IH]; intros cur; simpl.
  - destruct cur; split; try done. by intros [? _].
  - destruct (Str.isspace c) eqn:Hc.
    + destruct cur as [|x cur].
      * rewrite IH. split; intros [? H]; split; try done.
        -- by constructor.
        -- by apply Forall_inv_tail in H.
      * split; [done|]. by intros [? _].
    + rewrite IH. split.
      * intros [H _]. by destruct cur.
      * intros [_ H]. apply Forall_inv in H. congruence.
Qed.

Lemma split_nil s :
  Str.split s = [] ↔ Forall (fun c => Str.isspace c = true) s.
Proof. unfold Str.split. rewrite split_go_nil. by split; [intros [_ ?]|]. Qed.

End strip_facts.

(** ** The working text (lines 43-53) *)

Section working_text_facts.

Variable self : PathCompleter.
Variable w : World.

Implicit Types (d t : str).

(** The only way lines 43-47 fail: a delimiter string without any token
    makes the invalid pattern ['[]']. *)
Lemma working_text_Raise text_before_cursor e :
  working_text self text_before_cursor = Raise e →
  e = re_error ∧
  ∃ d, delimiters self = Some d ∧ Forall (fun c => Str.isspace c = true) d.
Proof.
  destruct (delimiters self) as [d|] eqn:Hd.
  - rewrite (working_text_delimiters self d _ Hd).
    destruct (Str.split d) as [|tok toks] eqn:Hs.
    + intros [= <-]. split; [done|]. exists d. split; [done|].
      by apply split_nil.
    + destruct (split_at_go_last
                  (fun c => Str.mem c (Str.join (u "|") (tok :: toks))) []
                  (Str.strip text_before_cursor)) as [seg Hseg].
      unfold Str.split_at. by rewrite Hseg.
  - unfold working_text. by rewrite Hd.
Qed.

(** X1: a request whose working text is shorter than [min_input_len]
    returns at once: no candidate, no exception, whatever the file system
    and the caller's functions would do. *)
Theorem short_text_yields_nothing text_before_cursor t :
  working_text self text_before_cursor = Ok t →
  (Z.of_nat (length t) < min_input_len self)%Z →
  get_completions self w text_before_cursor = Gen [] None.
Proof.
  intros Ht Hlen. unfold get_completions. rewrite Ht. cbn [G.call].
  by rewrite (proj2 (Z.ltb_lt _ _) Hlen).
Qed.

(** X2: no request ends with an [OSError], whatever the file system, the
    configuration and the caller's functions do. *)
Theorem get_completions_never_OSError text_before_cursor :
  raised (get_completions self w text_before_cursor) ≠ Some OSError.
Proof.
  unfold get_completions.
  destruct (working_text self text_before_cursor) as [t|e] eqn:Ht.
  - cbn [G.call].
    destruct (Z.of_nat (length t) <? min_input_len self)%Z; [done|].
    unfold completions_of, G.except_OSError, G.frame. cbn [raised].
    match goal with |- context [raised ?g] => destruct (raised g) as [e|] end;
      [|done].
    by destruct e.
  - apply working_text_Raise in Ht as [-> _]. done.
Qed.

(** X3: with a delimiter string that is empty or all whitespace, every
    request ends with [re.error] and yields nothing. *)
Theorem blank_delimiters_re_error d text_before_cursor :
  delimiters self = Some d →
  Forall (fun c => Str.isspace c = true) d →
  get_completions self w text_before_cursor = Gen [] (Some re_error).
Proof.
  intros Hd Hsp. unfold get_completions.
  rewrite (working_text_delimiters self d _ Hd).
  by rewrite (proj2 (split_nil d) Hsp).
Qed.

(** X4: the working text is trimmed: trimming it again changes nothing,
    and neither its first nor its last character is whitespace. *)
Theorem working_text_trimmed text_before_cursor t :
  working_text self text_before_cursor = Ok t →
  Str.strip t = t ∧
  (∀ c t', t = c :: t' → Str.isspace c = false) ∧
  (∀ c t', t = t' ++ [c] → Str.isspace c = false).
Proof.
  intros Ht.
  assert (∃ s, t = Str.strip s) as [s ->].
  { unfold working_text in Ht. destruct (delimiters self) as [d|].
    - destruct (Re.split _ _) as [segs|]; [|done]. cbn in Ht.
      destruct (last segs) as [seg|]; [|done].
      injection Ht as <-. by eexists.
    - injection Ht as <-. by eexists. }
  split; [apply strip_idemp|]. split.
  - intros c t'. apply strip_head.
  - intros c t'. apply strip_last.
Qed.

(** X5: with delimiters configured, the working text holds none of the
    characters the pattern splits at: the characters of the tokens of the
    delimiter string and, when there are several tokens, [|]. *)
Theorem working_text_no_delimiter d text_before_cursor t :
  delimiters self = Some d →
  working_text self text_before_cursor = Ok t →
  Forall (fun c => Str.mem c (Str.join (u "|") (Str.split d)) = false) t.
Proof.
  intros Hd. rewrite (working_text_delimiters self d _ Hd).
  destruct (Str.split d) as [|tok toks]; [done|].
  set (p := fun c => Str.mem c (Str.join (u "|") (tok :: toks))).
  destruct (last (Str.split_at p (Str.strip text_before_cursor)))
    as [seg|] eqn:Hseg; [|done].
  intros [= <-]. apply strip_Forall.
  pose proof (split_at_go_segments p [] (Str.strip text_before_cursor)
                ltac:(constructor)) as Hall.
  apply last_Some_elem_of in Hseg.
  eapply Forall_forall in Hall; [exact Hall|exact Hseg].
Qed.

(** X6: a text that holds no splitting character is left as it is by
    the delimiters: the working text is the trimmed text. *)
Theorem working_text_without_delimiter d text_before_cursor :
  delimiters self = Some d →
  Str.split d ≠ [] →
  Forall (fun c => Str.mem c (Str.join (u "|") (Str.split d)) = false)
         (Str.strip text_before_cursor) →
  working_text self text_before_cursor = Ok (Str.strip text_before_cursor).
Proof.
  intros Hd Hne Hno. rewrite (working_text_delimiters self d _ Hd).
  destruct (Str.split d) as [|tok toks]; [done|].
  unfold Str.split_at.
  rewrite (split_at_go_no_separator _ [] _ Hno). cbn [last app].
  by rewrite strip_idemp.
Qed.

End working_text_facts.

Lemma short_text_yields_nothing_witness :
  get_completions ExecutableCompleter example_world (u "") = Gen [] None.
Proof.
  apply (short_text_yields_nothing ExecutableCompleter example_world (u "") []).
  - reflexivity.
  - reflexivity.
Defined.

Lemma blank_delimiters_re_error_witness :
  get_completions (completer_with_delimiters (u " ")) example_world (u "a")
  = Gen [] (Some re_error).
Proof.
  apply (blank_delimiters_re_error (completer_with_delimiters (u " "))
           example_world (u " ") (u "a")).
  - reflexivity.
  - repeat constructor.
Defined.

Lemma working_text_trimmed_witness :
  Str.strip (u "b") = u "b" ∧
  (∀ c t', u "b" = c :: t' → Str.isspace c = false) ∧
  (∀ c t', u "b" = t' ++ [c] → Str.isspace c = false).
Proof.
  apply (working_text_trimmed (completer_with_delimiters (u ";,"))
           (u " a; b ") (u "b")).
  reflexivity.
Defined.

Lemma working_text_no_delimiter_witness :
  Forall (fun c => Str.mem c (Str.join (u "|") (Str.split (u ";,"))) = false)
         (u "b").
Proof.
  apply (working_text_no_delimiter (completer_with_delimiters (u ";,"))
           (u ";,") (u " a; b ") (u "b")).
  - reflexivity.
  - reflexivity.
Defined.

Lemma working_text_without_delimiter_witness :
  working_text (completer_with_delimiters (u ";,")) (u " ab ")
  = Ok (Str.strip (u " ab ")).
Proof.
  apply (working_text_without_delimiter (completer_with_delimiters (u ";,"))
           (u ";,") (u " ab ")).
  - reflexivity.
  - vm_compute. discriminate.
  - vm_compute. repeat constructor.
Defined.

(** X15: the path completer [text] installs splits the typed text at [;]
    and [,] only: its working text is the trimmed part after the last of
    these two characters, spaces, tabs and line feeds inside it
    included. *)
Theorem text_path_completer_working_text
    (exec_autocomplete : bool) (custom_autocomplete : option (list str))
    (text_before_cursor : str) :
  ∃ c segment,
    text_completer true exec_autocomplete custom_autocomplete
    = Ok (Some (PathCompleter_object c)) ∧
    last (Str.split_at (fun x => Str.mem x (u ";,"))
                       (Str.strip text_before_cursor)) = Some segment ∧
    working_text c text_before_cursor = Ok (Str.strip segment).
Proof.
  destruct (split_at_go_last (fun x => Str.mem x (u ";,")) []
              (Str.strip text_before_cursor)) as [segment Hseg].
  exists (completer_with_delimiters text_delimiters), segment.
  split; [done|]. split; [done|].
  rewrite (working_text_delimiters (completer_with_delimiters text_delimiters)
             text_delimiters _ eq_refl).
  change (Str.split text_delimiters) with [u ";,"]. cbn [Str.join].
  unfold Str.split_at. by rewrite Hseg.
Qed.

(** ** Where the candidates come from (lines 60-99) *)

Section sep_facts.

Implicit Types (s t p : str).

Lemma lstrip_sep_nil s : lstrip_sep s = [] → forallb is_sep s = true.
Proof.
  induction s as [|c s IH]; simpl; [done|].
  destruct (is_sep c); [done|discriminate].
Qed.

Lemma rstrip_sep_nil s : rstrip_sep s = [] → forallb is_sep s = true.
Proof.
  unfold rstrip_sep. intros H.
  apply (f_equal reverse) in H. rewrite reverse_involutive in H.
  apply lstrip_sep_nil in H.
  apply forallb_forall. intros c Hc.
  eapply forallb_forall in H; [exact H|].
  by apply list_elem_of_In, elem_of_reverse, list_elem_of_In.
Qed.

(** [os.path.join(p, t)] is [t] when [t] is absolute. *)
Lemma os_path_join_absolute p t :
  Str.startswith t (u "/") = true → os_path_join p t = t.
Proof. intros H. unfold os_path_join. by rewrite H. Qed.

(** The directory part of an absolute path is not empty. *)
Lemma os_path_dirname_absolute t :
  Str.startswith t (u "/") = true → os_path_dirname t ≠ [].
Proof.
  destruct t as [|c t]; [done|]. cbn [Str.startswith u].
  intros [Hc _]%andb_prop. apply N.eqb_eq in Hc as <-.
  unfold os_path_dirname. cbn [rfind_sep_succ].
  destruct (rfind_sep_succ t) as [|i]; cbn [is_sep take].
  - done.
  - set (head := _ :: take (S i) t).
    destruct (forallb is_sep head) eqn:Hall; [done|].
    intros Hnil%rstrip_sep_nil. congruence.
Qed.

(** The text is its directory part, up to the last separator, followed
    by its basename. *)
Lemma take_basename t : take (rfind_sep_succ t) t ++ os_path_basename t = t.
Proof. apply take_drop. Qed.

Lemma lt_app p a b : Str.lt (p ++ a) (p ++ b) = Str.lt a b.
Proof.
  induction p as [|x p IH]; [done|].
  simpl. by rewrite N.ltb_irrefl, N.eqb_refl, IH.
Qed.

Lemma le_app p a b : Str.le (p ++ a) (p ++ b) = Str.le a b.
Proof. unfold Str.le. by rewrite lt_app. Qed.

Lemma startswith_contains s p :
  Str.startswith s p = true → Str.contains s p = true.
Proof. intros H. destruct s; simpl; by rewrite H. Qed.

Lemma startswith_nil s : Str.startswith s [] = true.
Proof. done. Qed.

Lemma filter_sublist {A} (f : A → bool) (l : list A) :
  List.filter f l `sublist_of` l.
Proof.
  induction l as [|x l IH]; simpl; [constructor|].
  destruct (f x); by constructor.
Qed.

End sep_facts.

Section origin_facts.

Variable self : PathCompleter.
Variable w : World.

Implicit Types (prefix t : str) (fs : list (str * str)) (x : str * str).

(** Every pair the listing keeps is found again. *)
Lemma filenames_complete prefix dirs fs d names f :
  filenames w prefix dirs = Ok fs →
  d ∈ dirs → os_path_isdir w d = true → os_listdir w d = Some names →
  f ∈ names → Str.startswith f prefix = true →
  (d, f) ∈ fs.
Proof.
  intros Hfs Hd Hdir Hls Hf Hp. revert fs Hfs.
  induction dirs as [|d' dirs IH]; intros fs Hfs;
    [by apply elem_of_nil in Hd|].
  cbn [filenames] in Hfs.
  destruct (filenames w prefix dirs) as [more|] eqn:Hmore.
  2: { destruct (os_path_isdir w d'); [destruct (os_listdir w d')|];
       discriminate. }
  apply elem_of_cons in Hd as [<-|Hd].
  - rewrite Hdir, Hls in Hfs. injection Hfs as <-.
    apply elem_of_app. left. apply list_elem_of_fmap. exists f.
    split; [done|]. apply list_elem_of_In, filter_In.
    by rewrite <- list_elem_of_In.
  - assert ((d, f) ∈ more) as Hin by by apply IH.
    destruct (os_path_isdir w d'); [destruct (os_listdir w d')|];
      try discriminate; injection Hfs as <-;
      first [exact Hin | apply elem_of_app; by right].
Qed.

(** When [file_filter] does not raise, the loop yields a completion for
    every pair that passes. *)
Lemma yield_completions_complete prefix fs x :
  (∀ name, ∃ keep, file_filter self w name = Ok keep) →
  x ∈ fs → passes self w x →
  completion_of w prefix x ∈ yielded (yield_completions self w prefix fs).
Proof.
  intros Hf Hx [Hfil Hok].
  induction fs as [|[d f] fs IH]; [by apply elem_of_nil in Hx|].
  cbn [yield_completions].
  apply elem_of_cons in Hx as [->|Hx].
  - simpl in Hok. rewrite Hok. unfold filtered in Hfil. simpl in Hfil.
    unfold completion_of. simpl.
    destruct (os_path_isdir w (os_path_join d f)) eqn:Hdir.
    + apply list_elem_of_here.
    + destruct Hfil as [?|Hod]; [done|]. rewrite Hod. apply list_elem_of_here.
  - specialize (IH Hx).
    destruct (Hf (os_path_join d f)) as [keep ->].
    destruct (os_path_isdir w (os_path_join d f)), (only_directories self),
      keep; simpl; try done; by apply list_elem_of_further.
Qed.

(** The origin of an emitted candidate. *)
Lemma yielded_origin text_before_cursor c :
  c ∈ yielded (get_completions self w text_before_cursor) →
  ∃ t dirs x names,
    working_text self text_before_cursor = Ok t ∧
    directories self w (expanded self w t) = Ok dirs ∧
    x.1 ∈ dirs ∧ os_path_isdir w x.1 = true ∧
    os_listdir w x.1 = Some names ∧ x.2 ∈ names ∧
    Str.startswith x.2 (os_path_basename (expanded self w t)) = true ∧
    passes self w x ∧
    c = completion_of w (os_path_basename (expanded self w t)) x.
Proof.
  intros Hc.
  destruct (get_completions_kept self w text_before_cursor)
    as [Hnil|(t & dirs & fs & kept & Ht & Hd & Hfs & Hsub & Hpass & Hy)].
  { rewrite Hnil in Hc. by apply elem_of_nil in Hc. }
  rewrite Hy in Hc. apply list_elem_of_fmap in Hc as (x & -> & Hx).
  assert (x ∈ fs) as Hin.
  { rewrite <- (sorted_Permutation fs). by eapply elem_of_sublist. }
  destruct (filenames_elem w _ _ _ _ Hfs Hin)
    as (Hxd & Hdir & names & Hls & Hf & Hstart).
  exists t, dirs, x, names. repeat split; try done.
  - by eapply Forall_forall in Hpass as [? ?].
  - by eapply Forall_forall in Hpass as [? ?].
Qed.

End origin_facts.

(** X7: an absolute text is looked up in its own directory, once for
    every search path: the search paths themselves do not matter, only
    their number. *)
Theorem absolute_text_directories
    (self : PathCompleter) (w : World) (t : str) (paths : list str) :
  Str.startswith t (u "/") = true →
  get_paths self w = Ok paths →
  directories self w t = Ok (map (fun _ => os_path_dirname t) paths).
Proof.
  intros Habs Hp. unfold directories. rewrite Hp.
  destruct (os_path_dirname t) as [|c dir] eqn:Hdir.
  { by apply os_path_dirname_absolute in Habs. }
  cbn. f_equal. apply map_ext. intros p.
  by rewrite (os_path_join_absolute p t Habs).
Qed.

Lemma absolute_text_directories_witness :
  directories (completer_in [u "/x"; u "/y"]) example_world (u "/bin/l")
  = Ok (map (fun _ => os_path_dirname (u "/bin/l")) [u "/x"; u "/y"]).
Proof.
  apply (absolute_text_directories (completer_in [u "/x"; u "/y"])
           example_world (u "/bin/l") [u "/x"; u "/y"]).
  - reflexivity.
  - reflexivity.
Defined.

(** X8: candidate directories that are not directories (they do not
    exist, or are files) are passed over: the listing is that of the
    remaining ones, errors included. *)
Theorem filenames_skips_non_directories
    (w : World) (prefix : str) (dirs : list str) :
  filenames w prefix dirs
  = filenames w prefix (List.filter (os_path_isdir w) dirs).
Proof.
  induction dirs as [|d dirs IH]; [done|].
  cbn [List.filter]. destruct (os_path_isdir w d) eqn:Hdir.
  - cbn [filenames]. by rewrite Hdir, IH.
  - rewrite <- IH. cbn [filenames]. rewrite Hdir.
    by destruct (filenames w prefix dirs).
Qed.

(** X9: with [only_directories] set, every candidate is a listed entry
    that is a directory, and its display text ends with the separator. *)
Theorem only_directories_yields_directories
    (self : PathCompleter) (w : World) (text_before_cursor : str)
    (c : Completion) :
  only_directories self = true →
  c ∈ yielded (get_completions self w text_before_cursor) →
  ∃ directory names filename,
    os_listdir w directory = Some names ∧ filename ∈ names ∧
    os_path_isdir w (os_path_join directory filename) = true ∧
    display c = filename ++ u "/".
Proof.
  intros Hod Hc.
  destruct (yielded_origin self w _ c Hc)
    as (t & dirs & [d f] & names & _ & _ & _ & _ & Hls & Hf & _ & Hp & ->).
  destruct Hp as [[Hdir|Hno] _]; [|congruence].
  exists d, names, f. simpl in *. repeat split; try done.
  by rewrite Hdir.
Qed.

Lemma only_directories_yields_directories_witness :
  ∃ directory names filename,
    os_listdir example_world directory = Some names ∧ filename ∈ names ∧
    os_path_isdir example_world (os_path_join directory filename) = true ∧
    u "a/" = filename ++ u "/".
Proof.
  apply (only_directories_yields_directories (directories_in [u "."])
           example_world (u "a") (mkCompletion [] 0 (u "a/") [])).
  - reflexivity.
  - vm_compute. apply list_elem_of_here.
Defined.

(** X10: every candidate stands for a listed entry that [file_filter]
    accepted; its display text is the filename, followed by the separator
    exactly when the entry is a directory; it has no meta text. *)
Theorem candidate_display_and_filter
    (self : PathCompleter) (w : World) (text_before_cursor : str)
    (c : Completion) :
  c ∈ yielded (get_completions self w text_before_cursor) →
  ∃ directory names filename,
    os_listdir w directory = Some names ∧ filename ∈ names ∧
    file_filter self w (os_path_join directory filename) = Ok true ∧
    display c = (if os_path_isdir w (os_path_join directory filename)
                 then filename ++ u "/" else filename) ∧
    display_meta c = [].
Proof.
  intros Hc.
  destruct (yielded_origin self w _ c Hc)
    as (t & dirs & [d f] & names & _ & _ & _ & _ & Hls & Hf & _ & Hp & ->).
  destruct Hp as [_ Hok]. by exists d, names, f.
Qed.

Lemma candidate_display_and_filter_witness :
  ∃ directory names filename,
    os_listdir example_world directory = Some names ∧ filename ∈ names ∧
    file_filter (completer_in [u "."]) example_world
                (os_path_join directory filename) = Ok true ∧
    u "ab" = (if os_path_isdir example_world (os_path_join directory filename)
              then filename ++ u "/" else filename) ∧
    @nil N = [].
Proof.
  apply (candidate_display_and_filter (completer_in [u "."]) example_world
           (u "a") (mkCompletion (u "b") 0 (u "ab") [])).
  vm_compute. do 2 apply list_elem_of_further. apply list_elem_of_here.
Defined.

(** X11: no match is lost.  When the listing of the candidate directories
    succeeds and [file_filter] does not raise, every listed entry that
    starts with the prefix and passes the filters is among the
    candidates. *)
Theorem matching_entry_is_emitted
    (self : PathCompleter) (w : World) (text_before_cursor t : str)
    (dirs : list str) (fs : list (str * str))
    (directory : str) (names : list str) (filename : str) :
  let prefix := os_path_basename (expanded self w t) in
  working_text self text_before_cursor = Ok t →
  (min_input_len self ≤ Z.of_nat (length t))%Z →
  directories self w (expanded self w t) = Ok dirs →
  filenames w prefix dirs = Ok fs →
  (∀ name, ∃ keep, file_filter self w name = Ok keep) →
  directory ∈ dirs →
  os_path_isdir w directory = true →
  os_listdir w directory = Some names →
  filename ∈ names →
  Str.startswith filename prefix = true →
  passes self w (directory, filename) →
  completion_of w prefix (directory, filename)
    ∈ yielded (get_completions self w text_before_cursor).
Proof.
  intros prefix Ht Hlen Hd Hfs Htot Hin Hdir Hls Hf Hstart Hpass.
  rewrite (get_completions_unfold self w _ t Ht Hlen).
  unfold completions_of. cbv zeta. rewrite Hd. cbn [G.call].
  fold prefix. rewrite Hfs. cbn [G.call G.except_OSError yielded].
  apply yield_completions_complete; [done| |done].
  rewrite (sorted_Permutation fs).
  by eapply filenames_complete.
Qed.

Lemma matching_entry_is_emitted_witness :
  completion_of example_world
    (os_path_basename (expanded (completer_in [u "."]) example_world (u "a")))
    (u ".", u "ab")
  ∈ yielded (get_completions (completer_in [u "."]) example_world (u "a")).
Proof.
  apply (matching_entry_is_emitted (completer_in [u "."]) example_world
           (u "a") (u "a") [u "."]
           [(u ".", u "ab"); (u ".", u "a.b"); (u ".", u "a")]
           (u ".") [u "ab"; u "a.b"; u "a"] (u "ab")).
  - reflexivity.
  - vm_compute. discriminate.
  - reflexivity.
  - reflexivity.
  - intros name. exists true. reflexivity.
  - apply list_elem_of_here.
  - reflexivity.
  - reflexivity.
  - apply list_elem_of_here.
  - reflexivity.
  - split; [right; reflexivity|reflexivity].
Defined.

(** X12: the text with the insertion text appended is the text up to its
    last separator followed by the whole filename: accepting a candidate
    completes the basename and leaves the directory part as typed. *)
Theorem completed_text_names_the_file
    (self : PathCompleter) (w : World) (text_before_cursor : str)
    (c : Completion) :
  c ∈ yielded (get_completions self w text_before_cursor) →
  ∃ t directory names filename,
    working_text self text_before_cursor = Ok t ∧
    os_listdir w directory = Some names ∧ filename ∈ names ∧
    let typed := expanded self w t in
    typed ++ text c = take (rfind_sep_succ typed) typed ++ filename.
Proof.
  intros Hc.
  destruct (yielded_origin self w _ c Hc)
    as (t & dirs & [d f] & names & Ht & _ & _ & _ & Hls & Hf & Hst & _ & ->).
  exists t, d, names, f. repeat split; try done. simpl in *.
  rewrite <- (take_basename (expanded self w t)) at 1.
  rewrite <- app_assoc. f_equal. symmetry. by apply startswith_drop.
Qed.

Lemma completed_text_names_the_file_witness :
  ∃ t directory names filename,
    working_text (completer_in [u "/tmp"]) (u "/tmp/x/al") = Ok t ∧
    os_listdir example_world directory = Some names ∧ filename ∈ names ∧
    let typed := expanded (completer_in [u "/tmp"]) example_world t in
    typed ++ u "pha.txt" = take (rfind_sep_succ typed) typed ++ filename.
Proof.
  apply (completed_text_names_the_file (completer_in [u "/tmp"]) example_world
           (u "/tmp/x/al") (mkCompletion (u "pha.txt") 0 (u "alpha.txt") [])).
  vm_compute. apply list_elem_of_here.
Defined.

(** X13: the executable completer offers only entries that [os.access]
    reports executable. *)
Theorem executable_candidates_are_executable
    (w : World) (text_before_cursor : str) (c : Completion) :
  c ∈ yielded (get_completions ExecutableCompleter w text_before_cursor) →
  ∃ directory names filename,
    os_listdir w directory = Some names ∧ filename ∈ names ∧
    os_access_X_OK w (os_path_join directory filename) = true ∧
    display c = (if os_path_isdir w (os_path_join directory filename)
                 then filename ++ u "/" else filename).
Proof.
  intros Hc.
  destruct (yielded_origin ExecutableCompleter w _ c Hc)
    as (t & dirs & [d f] & names & _ & _ & _ & _ & Hls & Hf & _ & Hp & ->).
  destruct Hp as [_ Hok]. simpl in Hok. injection Hok as Hok.
  by exists d, names, f.
Qed.

Lemma executable_candidates_are_executable_witness :
  ∃ directory names filename,
    os_listdir example_world_PATH directory = Some names ∧ filename ∈ names ∧
    os_access_X_OK example_world_PATH (os_path_join directory filename) = true ∧
    u "ls" = (if os_path_isdir example_world_PATH
                   (os_path_join directory filename)
              then filename ++ u "/" else filename).
Proof.
  apply (executable_candidates_are_executable example_world_PATH (u "l")
           (mkCompletion (u "s") 0 (u "ls") [])).
  vm_compute. apply list_elem_of_here.
Defined.

(** X14: line 81 is a stable sort by filename: it only reorders the
    pairs, the result is in ascending order of filename, and the pairs
    that share a filename keep the order in which the directories were
    listed. *)
Theorem sorted_is_stable_sort (l : list (str * str)) :
  sorted l ≡ₚ l ∧
  StronglySorted by_filename (sorted l) ∧
  ∀ filename,
    List.filter (fun x => bool_decide (x.2 = filename)) (sorted l)
    = List.filter (fun x => bool_decide (x.2 = filename)) l.
Proof.
  split; [apply sorted_Permutation|]. split; [apply sorted_Sorted|].
  intros filename. apply sorted_stable.
Qed.

Lemma drop_prefix_Sorted (prefix : str) (l : list (str * str)) :
  Forall (fun x => Str.startswith x.2 prefix = true) l →
  StronglySorted by_filename l →
  StronglySorted (fun a b => Str.le a b = true)
                 ((fun x => drop (length prefix) x.2) <$> l).
Proof.
  intros Hall Hs. induction Hs as [|x l Hs IH Hx]; [constructor|].
  apply Forall_cons in Hall as [Hpx Hall].
  cbn [fmap list_fmap]. constructor; [by apply IH|].
  apply Forall_fmap, Forall_forall. intros y Hy. simpl.
  eapply Forall_forall in Hx; [|exact Hy].
  eapply Forall_forall in Hall; [|exact Hy]. simpl in Hall.
  unfold by_filename in Hx.
  rewrite (startswith_drop _ _ Hpx), (startswith_drop _ _ Hall) in Hx.
  by rewrite le_app in Hx.
Qed.

(** X16: the insertion texts of the candidates are in ascending order:
    all filenames share the typed prefix, so their order is that of what
    follows the prefix. *)
Theorem insertion_texts_sorted
    (self : PathCompleter) (w : World) (text_before_cursor : str) :
  StronglySorted (fun a b => Str.le a b = true)
    (text <$> yielded (get_completions self w text_before_cursor)).
Proof.
  destruct (get_completions_kept self w text_before_cursor)
    as [->|(t & dirs & fs & kept & Ht & Hd & Hfs & Hsub & _ & ->)];
    [constructor|].
  rewrite <- list_fmap_compose.
  apply drop_prefix_Sorted.
  - apply Forall_forall. intros x Hx.
    assert (x ∈ fs) as Hin.
    { rewrite <- (sorted_Permutation fs). by eapply elem_of_sublist. }
    by destruct (filenames_elem w _ _ _ _ Hfs Hin) as (_ & _ & ? & _ & _ & ?).
  - eapply sublist_StronglySorted; [exact Hsub|apply sorted_Sorted].
Qed.

(** ** More on the word completer (lines 151-180) *)

Section word_order_facts.

Variable lower : str → str.
Variable get_word_before_cursor : bool → str → str.

Implicit Types (self : Word.WordCompleter) (ws : list str).

Lemma fmap_text_new_Completion (pos : Z) (meta : str → str) ws :
  text <$> ((fun a => new_Completion a pos None (Some (meta a))) <$> ws) = ws.
Proof. induction ws as [|a ws IH]; [done|]. cbn. by f_equal. Qed.

Lemma get_completions_texts self text_before_cursor ws :
  Word.resolve_words self = Ok ws →
  text <$> yielded (Word.get_completions lower get_word_before_cursor self
                                         text_before_cursor)
  = List.filter
      (Word.word_matches lower self
         (Word.anchor lower get_word_before_cursor self text_before_cursor))
      ws.
Proof.
  intros Hws.
  rewrite (get_completions_filter lower get_word_before_cursor self _ ws Hws).
  cbn [yielded].
  apply (fmap_text_new_Completion _
           (fun a => default [] (Word.meta_dict self !! a))).
Qed.

End word_order_facts.

(** X17: the word completer offers exactly the words of the list that
    match, each as many times as the list holds it and in the order of the
    list: nothing is sorted, dropped or added; and it raises nothing of its
    own.  The one exception a request can end with comes from the callable
    that supplies the words: nothing is yielded then, and the exception
    reaches the caller (a [StopIteration] as a [RuntimeError]). *)
Theorem word_candidates_in_list_order
    (lower : str → str) (get_word_before_cursor : bool → str → str)
    (self : Word.WordCompleter) (text_before_cursor : str) :
  match Word.resolve_words self with
  | Ok ws =>
      text <$> yielded (Word.get_completions lower get_word_before_cursor
                                             self text_before_cursor)
      = List.filter
          (Word.word_matches lower self
             (Word.anchor lower get_word_before_cursor self
                          text_before_cursor)) ws ∧
      raised (Word.get_completions lower get_word_before_cursor self
                                   text_before_cursor) = None
  | Raise e =>
      Word.get_completions lower get_word_before_cursor self
                           text_before_cursor
      = Gen [] (Some (match e with StopIteration => RuntimeError | _ => e end))
  end.
Proof.
  destruct (Word.resolve_words self) as [ws|e] eqn:Hws.
  - split.
    + by apply get_completions_texts.
    + by rewrite (get_completions_filter lower get_word_before_cursor self _
                    ws Hws).
  - unfold Word.get_completions. by rewrite Hws.
Qed.

(** X18: with nothing typed, every word of the list is offered, in order,
    at start position 0 (lower-casing the empty string gives the empty
    string). *)
Theorem empty_anchor_offers_every_word
    (lower : str → str) (get_word_before_cursor : bool → str → str)
    (self : Word.WordCompleter) (text_before_cursor : str) (ws : list str) :
  Word.resolve_words self = Ok ws →
  (if Word.sentence self then text_before_cursor
   else get_word_before_cursor (Word.WORD self) text_before_cursor) = [] →
  lower [] = [] →
  text <$> yielded (Word.get_completions lower get_word_before_cursor self
                                         text_before_cursor) = ws ∧
  Forall (fun c => start_position c = 0%Z)
         (yielded (Word.get_completions lower get_word_before_cursor self
                                        text_before_cursor)).
Proof.
  intros Hws Htyped Hlower.
  assert (Word.anchor lower get_word_before_cursor self text_before_cursor
          = []) as Ha.
  { unfold Word.anchor. rewrite Htyped.
    by destruct (Word.ignore_case self). }
  assert (∀ l : list str,
            List.filter (Word.word_matches lower self []) l = l) as Hall.
  { induction l as [|a l IH]; [done|]. cbn [List.filter].
    assert (Word.word_matches lower self [] a = true) as ->.
    { unfold Word.word_matches.
      destruct (Word.match_middle self); [|done].
      by apply startswith_contains. }
    by rewrite IH. }
  split.
  - rewrite (get_completions_texts lower get_word_before_cursor self _ ws Hws).
    by rewrite Ha, Hall.
  - rewrite (get_completions_filter lower get_word_before_cursor self _ ws
               Hws).
    cbn [yielded]. rewrite Ha. apply Forall_fmap, Forall_forall. by intros.
Qed.

Lemma empty_anchor_offers_every_word_witness :
  text <$> yielded (Word.get_completions Word.latin_lower (fun _ s => s)
             (scenario_words [u "add"; u "remove"; u "update"] true false) [])
  = [u "add"; u "remove"; u "update"] ∧
  Forall (fun c => start_position c = 0%Z)
    (yielded (Word.get_completions Word.latin_lower (fun _ s => s)
                (scenario_words [u "add"; u "remove"; u "update"] true false)
                [])).
Proof.
  apply (empty_anchor_offers_every_word Word.latin_lower (fun _ s => s)
           (scenario_words [u "add"; u "remove"; u "update"] true false) []
           [u "add"; u "remove"; u "update"]).
  - reflexivity.
  - reflexivity.
  - reflexivity.
Defined.

(** X19: matching in the middle only adds candidates: whatever is offered
    with [match_middle] off is offered, unchanged, with [match_middle]
    on. *)
Theorem prefix_matches_are_middle_matches
    (lower : str → str) (get_word_before_cursor : bool → str → str)
    (self : Word.WordCompleter) (text_before_cursor : str) (c : Completion) :
  c ∈ yielded (Word.get_completions lower get_word_before_cursor
                 (with_match_middle false self) text_before_cursor) →
  c ∈ yielded (Word.get_completions lower get_word_before_cursor
                 (with_match_middle true self) text_before_cursor).
Proof.
  destruct (Word.resolve_words self) as [ws|e] eqn:Hws.
  - rewrite (get_completions_filter lower get_word_before_cursor
               (with_match_middle false self) _ ws Hws).
    rewrite (get_completions_filter lower get_word_before_cursor
               (with_match_middle true self) _ ws Hws).
    cbn [yielded].
    intros (a & -> & Ha)%list_elem_of_fmap.
    apply list_elem_of_fmap. exists a. split; [done|].
    apply list_elem_of_In, filter_In in Ha as [Hin Hm].
    apply list_elem_of_In, filter_In. split; [done|].
    unfold Word.word_matches in *. cbn in *.
    by apply startswith_contains.
  - unfold Word.get_completions.
    change (Word.resolve_words (with_match_middle false self))
      with (Word.resolve_words self).
    rewrite Hws. cbn. by intros ?%elem_of_nil.
Qed.

Lemma prefix_matches_are_middle_matches_witness :
  mkCompletion (u "update") (-2) (u "update") []
  ∈ yielded (Word.get_completions Word.latin_lower (fun _ s => s)
               (with_match_middle true
                  (scenario_words [u "create"; u "update"] false false))
               (u "up")).
Proof.
  apply (prefix_matches_are_middle_matches Word.latin_lower (fun _ s => s)
           (scenario_words [u "create"; u "update"] false false) (u "up")).
  vm_compute. apply list_elem_of_here.
Defined.

(** X20: every candidate carries a word of the list, unchanged, as
    insertion text and as display text, and the meta text the dictionary
    gives for it, or none when the word is not a key; and when
    [ignore_case] is off, or lower-casing keeps the length of the typed
    anchor, its start position is minus the length of the typed anchor. *)
Theorem word_candidate_carries_word
    (lower : str → str) (get_word_before_cursor : bool → str → str)
    (self : Word.WordCompleter) (text_before_cursor : str) (ws : list str)
    (c : Completion) :
  let typed :=
    if Word.sentence self then text_before_cursor
    else get_word_before_cursor (Word.WORD self) text_before_cursor in
  Word.resolve_words self = Ok ws →
  c ∈ yielded (Word.get_completions lower get_word_before_cursor self
                                    text_before_cursor) →
  text c ∈ ws ∧ display c = text c ∧
  display_meta c = default [] (Word.meta_dict self !! text c) ∧
  (Word.ignore_case self = false ∨ length (lower typed) = length typed →
   start_position c = (- Z.of_nat (length typed))%Z).
Proof.
  intros typed Hws Hc.
  destruct (word_completion_fields lower get_word_before_cursor self _ ws c
              Hws Hc) as (H1 & H2 & H3 & H4).
  repeat split; try done.
  intros Hlen. rewrite H4. unfold Word.anchor. fold typed.
  destruct Hlen as [-> | Hlen]; [done|].
  destruct (Word.ignore_case self); [by rewrite Hlen|done].
Qed.

Lemma word_candidate_carries_word_witness :
  (Istanbul ∈ [Istanbul] ∧ Istanbul = Istanbul ∧
   @nil N = default [] ((∅ : gmap str str) !! Istanbul)) ∧
  (u "add" ∈ [u "add"; u "remove"; u "update"] ∧
   (-2)%Z = (- Z.of_nat (length (u "AD")))%Z).
Proof.
  split.
  - destruct (word_candidate_carries_word Word.latin_lower (fun _ s => s)
                (scenario_words [Istanbul] true false) [304%N] [Istanbul]
                (mkCompletion Istanbul (-2) Istanbul []))
      as (H1 & H2 & H3 & _).
    + reflexivity.
    + vm_compute. apply list_elem_of_here.
    + exact (conj H1 (conj H2 H3)).
  - destruct (word_candidate_carries_word Word.latin_lower (fun _ s => s)
                (scenario_words [u "add"; u "remove"; u "update"] true false)
                (u "AD") [u "add"; u "remove"; u "update"]
                (mkCompletion (u "add") (-2) (u "add") []))
      as (H1 & _ & _ & H4).
    + reflexivity.
    + vm_compute. apply list_elem_of_here.
    + split; [exact H1|]. apply H4. right. reflexivity.
Defined.

(** ** Construction and requests together (lines 27-47) *)




